(** * Row permutations of layered sparse matrices (js/permute.js)

    A shallow embedding of [permuteVector], [unpermuteVector] and
    [updatePermutation], first on array contents and then on a store of
    array objects, together with the properties of the permutation
    subsystem. *)

From stdpp Require Import base numbers option list strings gmap.

Local Open Scope Z_scope.

(** ** JavaScript arrays *)

(** [values] may be an [Array] or a [TypedArray]. Both are sequences of
    elements; they differ when an index at or past the length is written
    (an [Array] grows, a typed array ignores the write) and when
    [undefined] is written (a typed array stores a number instead).
    Properties of an array other than its elements are not modelled: a
    write at a negative index leaves the elements as they are. *)
Inductive kind := Plain | Typed.

#[global] Instance kind_eq_dec : EqDecision kind.
Proof. solve_decision. Defined.

(** What a function call yields: a value, or a thrown message. *)
Inductive outcome (A : Type) :=
  | Returned (a : A)
  | Thrown (msg : string).
Arguments Returned {A} a.
Arguments Thrown {A} msg.

(** [a.slice()]: the elements of a new array are those of [a]. *)
Definition slice {A : Type} (a : list A) : list A := a.

(** [a.forEach((x, i) => ...)] with the callback as a state transformer:
    the elements are visited in increasing index order. *)
Fixpoint forEach_from {A St : Type} (i : nat) (a : list A)
    (cb : A → nat → St → St) (s : St) : St :=
  match a with
  | [] => s
  | x :: a' => forEach_from (S i) a' cb (cb x i s)
  end.

Definition forEach {A St : Type} (a : list A) (cb : A → nat → St → St) (s : St) : St :=
  forEach_from 0 a cb s.

(** [a.entries()]: the pairs [index, value]. *)
Definition entries {A : Type} (a : list A) : list (nat * A) := imap pair a.

(** An [Int32Array]: reading past the end yields [undefined] ([None]);
    writing outside the array is ignored, and writing [undefined] stores 0. *)
Definition int_get (a : list Z) (i : Z) : option Z :=
  if decide (0 ≤ i) then a !! Z.to_nat i else None.

Definition int_set (a : list Z) (x : Z) (v : option Z) : list Z :=
  if decide (0 ≤ x < Z.of_nat (length a)) then <[Z.to_nat x := default 0 v]> a else a.

Section values.
Context {T : Type}.
(** The element a typed array stores when [undefined] is written to it
    (NaN in a float array, 0 in an integer array). *)
Variable nan : T.

(** An array of values: [None] is [undefined] (or a hole). *)
Definition array_get (a : list (option T)) (i : Z) : option T :=
  if decide (0 ≤ i) then mjoin (a !! Z.to_nat i) else None.

Definition store (k : kind) (v : option T) : option T :=
  match k with
  | Plain => v
  | Typed => Some (default nan v)
  end.

(** [a[x] = v]. A negative [x] names no element. Past the end, an
    [Array] is extended with holes up to [x]. *)
Definition array_set (k : kind) (a : list (option T)) (x : Z) (v : option T) :
    list (option T) :=
  if decide (x < 0) then a
  else if decide (x < Z.of_nat (length a)) then <[Z.to_nat x := store k v]> a
  else match k with
       | Plain => a ++ replicate (Z.to_nat x - length a)%nat None ++ [v]
       | Typed => a
       end.
End values.

(** ** The layered matrix *)

(** Modelled from the spec: the [LayeredSparseMatrix] class of
    js/SparseMatrix.js, of which the functions use
    [permutation({ copy: false })], an integer array of length n, and
    [numberOfRows()], which is n. *)
Record LayeredSparseMatrix := { permutation : list Z }.

Definition numberOfRows (m : LayeredSparseMatrix) : nat := length (permutation m).

(** The first argument of the three functions: a matrix or a permutation
    vector ([layered instanceof LayeredSparseMatrix] tells them apart). *)
Inductive layered_arg :=
  | Layered (m : LayeredSparseMatrix)
  | Perm (p : list Z).

(** ** The three functions, on array contents *)

Section permute.
Context {T : Type}.
Variable nan : T.

Definition permuteVector (k : kind) (layered : layered_arg)
    (values : list (option T)) : list (option T) :=
  let copy := slice values in
  let perm :=
    match layered with
    | Layered m => permutation m
    | Perm p => p
    end in
  forEach perm (λ x i copy, array_set nan k copy x (array_get values (Z.of_nat i))) copy.

Definition unpermuteVector (k : kind) (layered : layered_arg)
    (values : list (option T)) : list (option T) :=
  let copy := slice values in
  let perm :=
    match layered with
    | Layered m => permutation m
    | Perm p => p
    end in
  forEach perm (λ x i copy, array_set nan k copy (Z.of_nat i) (array_get values x)) copy.
End permute.

(** The comparison loop of [updatePermutation] over the entries of the
    permutation: it stops at the first index where [old[index] != val]. *)
Fixpoint same_loop (old : list Z) (es : list (nat * Z)) : bool :=
  match es with
  | [] => true
  | (index, val) :: es' =>
      if decide (int_get old (Z.of_nat index) ≠ Some val) then false
      else same_loop old es'
  end.

(** [old] is a typed array, and so is [output], its copy. The result is
    [None] for [null]. *)
Definition updatePermutation (layered : layered_arg) (old : list Z) :
    outcome (option (list Z)) :=
  let checked :=
    match layered with
    | Layered m =>
        if decide (length old ≠ numberOfRows m)
        then Thrown "number of rows in 'layered' should be the same as length of 'old'"
        else Returned (λ _ : unit, permutation m)
    | Perm p =>
        if decide (length old ≠ length p)
        then Thrown "length of 'layered' should be the same as length of 'old'"
        else Returned (λ _ : unit, p)
    end in
  match checked with
  | Thrown msg => Thrown msg
  | Returned spawnPerm =>
      let same := same_loop old (entries (spawnPerm ())) in
      if same then Returned None
      else
        let output := slice old in
        Returned (Some (forEach (spawnPerm ())
          (λ x i output, int_set output x (int_get old (Z.of_nat i))) output))
  end.

(** A vector all of whose entries are defined. *)
Definition vec {T : Type} (V : list T) : list (option T) := Some <$> V.

(** ** Permutations *)

(** A Permutation of length n: no repeats and no out-of-range values. *)
Definition bijection (P : list Z) : Prop :=
  NoDup P ∧ Forall (λ x, 0 ≤ x < Z.of_nat (length P)) P.

#[global] Instance bijection_dec P : Decision (bijection P).
Proof. unfold bijection. apply _. Defined.

(** The entries of [P] are valid positions of an array of length [n]. *)
Definition in_range (n : nat) (P : list Z) : Prop :=
  Forall (λ x, 0 ≤ x < Z.of_nat n) P.

#[global] Instance in_range_dec n P : Decision (in_range n P).
Proof. unfold in_range. apply _. Defined.

(** ** The three functions on a store of array objects *)

(** Arrays are objects: [slice] allocates a new one and [a[x] = v]
    updates one in place. The functions are written here as the source
    has them, on references into a store, so that what a call changes,
    and what it allocates, can be stated. A permutation vector and a
    vector of values are objects of two types, as the source documents
    them ([Int32Array], and [Array] or [TypedArray]); the two arguments
    of [updatePermutation] may be one and the same array. *)
Module Store.
Section store.
Context {T : Type}.
Variable nan : T.

Definition loc := positive.

(** The objects the functions receive: a permutation vector (an
    [Int32Array]), a vector of values, or a layered matrix, which holds
    the permutation vector that [permutation({ copy: false })] returns
    without copying. *)
Inductive object :=
  | IntArray (a : list Z)
  | ValArray (k : kind) (a : list (option T))
  | Matrix (rows : loc).

(** A computation on the store returns or throws, and leaves a store;
    it yields [None] only on a reference that is not an object of the
    type the operation is documented for. *)
Definition M (A : Type) : Type :=
  gmap loc object → option (outcome A * gmap loc object).

Definition ret {A} (a : A) : M A := λ h, Some (Returned a, h).
Definition throw {A} (msg : string) : M A := λ h, Some (Thrown msg, h).
Definition ill_typed {A} : M A := λ _, None.
Definition bind {A B} (m : M A) (f : A → M B) : M B := λ h,
  match m h with
  | Some (Returned a, h') => f a h'
  | Some (Thrown msg, h') => Some (Thrown msg, h')
  | None => None
  end.

Notation "x <- m ;; f" := (bind m (λ x, f))
  (at level 100, m at next level, f at level 200, right associativity,
   only parsing).

Definition new (o : object) : M loc := λ h,
  let l := fresh (dom h) in Some (Returned l, <[l := o]> h).

Definition deref (l : loc) : M object := λ h,
  match h !! l with
  | Some o => Some (Returned o, h)
  | None => None
  end.

(** [a.slice()] *)
Definition slice (l : loc) : M loc :=
  o <- deref l;;
  match o with
  | IntArray a => new (IntArray (slice a))
  | ValArray k a => new (ValArray k (slice a))
  | Matrix _ => ill_typed
  end.

(** [layered instanceof LayeredSparseMatrix] *)
Definition instanceof_LayeredSparseMatrix (l : loc) : M bool :=
  o <- deref l;;
  match o with
  | Matrix _ => ret true
  | _ => ret false
  end.

(** [layered.permutation({ copy: false })] *)
Definition permutation (l : loc) : M loc :=
  o <- deref l;;
  match o with
  | Matrix rows => ret rows
  | _ => ill_typed
  end.

(** [p.length] of a permutation vector *)
Definition length (l : loc) : M nat :=
  o <- deref l;;
  match o with
  | IntArray a => ret (List.length a)
  | _ => ill_typed
  end.

(** [layered.numberOfRows()] *)
Definition numberOfRows (l : loc) : M nat :=
  rows <- permutation l;; length rows.

(** [p[i]] of a permutation vector *)
Definition int_read (l : loc) (i : Z) : M (option Z) :=
  o <- deref l;;
  match o with
  | IntArray a => ret (int_get a i)
  | _ => ill_typed
  end.

(** [p[x] = v] on a permutation vector *)
Definition int_write (l : loc) (x : Z) (v : option Z) : M unit :=
  o <- deref l;;
  match o with
  | IntArray a => λ h, Some (Returned (), <[l := IntArray (int_set a x v)]> h)
  | _ => ill_typed
  end.

(** [values[i]] *)
Definition read (l : loc) (i : Z) : M (option T) :=
  o <- deref l;;
  match o with
  | ValArray _ a => ret (array_get a i)
  | _ => ill_typed
  end.

(** [copy[x] = v] *)
Definition write (l : loc) (x : Z) (v : option T) : M unit :=
  o <- deref l;;
  match o with
  | ValArray k a => λ h, Some (Returned (), <[l := ValArray k (array_set nan k a x v)]> h)
  | _ => ill_typed
  end.

(** [perm.forEach((x, i) => ...)]: the length is read once, each
    element when its turn comes. *)
Fixpoint forEach_at (perm : loc) (cb : Z → nat → M unit) (indices : list nat) : M unit :=
  match indices with
  | [] => ret ()
  | i :: indices' =>
      o <- int_read perm (Z.of_nat i);;
      match o with
      | Some x => _ <- cb x i;; forEach_at perm cb indices'
      | None => ill_typed
      end
  end.

Definition forEach (perm : loc) (cb : Z → nat → M unit) : M unit :=
  len <- length perm;; forEach_at perm cb (seq 0 len).

Definition permuteVector (layered values : loc) : M loc :=
  copy <- slice values;;
  is_matrix <- instanceof_LayeredSparseMatrix layered;;
  perm <- (if is_matrix : bool then permutation layered else ret layered);;
  _ <- forEach perm (λ x i, v <- read values (Z.of_nat i);; write copy x v);;
  ret copy.

Definition unpermuteVector (layered values : loc) : M loc :=
  copy <- slice values;;
  is_matrix <- instanceof_LayeredSparseMatrix layered;;
  perm <- (if is_matrix : bool then permutation layered else ret layered);;
  _ <- forEach perm (λ x i, v <- read values x;; write copy (Z.of_nat i) v);;
  ret copy.

(** The comparison loop over [spawnPerm().entries()], left at the first
    difference. *)
Fixpoint same_loop (old perm : loc) (indices : list nat) : M bool :=
  match indices with
  | [] => ret true
  | index :: indices' =>
      val <- int_read perm (Z.of_nat index);;
      o <- int_read old (Z.of_nat index);;
      match val with
      | Some val =>
          if decide (o ≠ Some val) then ret false
          else same_loop old perm indices'
      | None => ill_typed
      end
  end.

Definition updatePermutation (layered old : loc) : M (option loc) :=
  is_matrix <- instanceof_LayeredSparseMatrix layered;;
  spawnPerm <- (if is_matrix : bool then
                 old_length <- length old;;
                 rows <- numberOfRows layered;;
                 if decide (old_length ≠ rows)
                 then throw "number of rows in 'layered' should be the same as length of 'old'"
                 else ret (permutation layered)
               else
                 old_length <- length old;;
                 layered_length <- length layered;;
                 if decide (old_length ≠ layered_length)
                 then throw "length of 'layered' should be the same as length of 'old'"
                 else ret (ret layered));;
  same <- (perm <- spawnPerm;; len <- length perm;; same_loop old perm (seq 0 len));;
  if same : bool then ret None
  else
    output <- slice old;;
    perm <- spawnPerm;;
    _ <- forEach perm (λ x i, v <- int_read old (Z.of_nat i);; int_write output x v);;
    ret (Some output).
End store.
End Store.

(** The argument [layered] as the store holds it. *)
Definition resolve {T : Type} (h : gmap Store.loc (@Store.object T)) (l : Store.loc) :
    option layered_arg :=
  match h !! l with
  | Some (Store.IntArray p) => Some (Perm p)
  | Some (Store.Matrix rows) =>
      match h !! rows with
      | Some (Store.IntArray p) => Some (Layered {| permutation := p |})
      | _ => None
      end
  | _ => None
  end.

(** The permutation vector that [layered] stands for. *)
Definition perm_of (layered : layered_arg) : list Z :=
  match layered with
  | Layered m => permutation m
  | Perm p => p
  end.

(** What [updatePermutation] leaves in the store, by what it returns
    on contents: nothing new when it throws or returns [null], and one
    new array that holds the result otherwise. *)
Definition update_result {T : Type} (h : gmap Store.loc (@Store.object T))
    (r : outcome (option (list Z))) :
    option (outcome (option Store.loc) * gmap Store.loc (@Store.object T)) :=
  match r with
  | Thrown msg => Some (Thrown msg, h)
  | Returned None => Some (Returned None, h)
  | Returned (Some Q) =>
      Some (Returned (Some (fresh (dom h))), <[fresh (dom h) := Store.IntArray Q]> h)
  end.

(** ** Loops that write at the positions a permutation names *)

(** [c[x] = f i] for every entry [x] of [p], at index [i], in order:
    the loops of [permuteVector] and [updatePermutation] when every
    entry is a position of [c]. *)
Definition scatter {A : Type} (f : nat → A) (p : list Z) (c : list A) : list A :=
  forEach p (λ x i c, <[Z.to_nat x := f i]> c) c.

(** [c[i] = g x] for every entry [x] of [p], at index [i]: the loop of
    [unpermuteVector] when [p] is no longer than [c]. *)
Definition gather {A : Type} (g : Z → A) (p : list Z) (c : list A) : list A :=
  forEach p (λ x i c, <[i := g x]> c) c.

(** ** Stores of the concrete scenarios *)

(** The store of the concrete scenario: the permutation at reference 1,
    the vector at reference 2. *)
Definition scenario_store (P : list Z) (k : kind) (V : list Z) :
    gmap Store.loc (@Store.object Z) :=
  <[2%positive := Store.ValArray k (vec V)]> (<[1%positive := Store.IntArray P]> ∅).

(** The store of the reconciler scenario: the new permutation at
    reference 1, the old one at reference 2. *)
Definition reconciler_store (newP oldP : list Z) : gmap Store.loc (@Store.object Z) :=
  <[2%positive := Store.IntArray oldP]> (<[1%positive := Store.IntArray newP]> ∅).

(** A store with a layered matrix at reference 4, whose permutation
    vector is the array at reference 1, a vector of values at reference 2
    and an old permutation vector at reference 3. *)
Definition matrix_store (P : list Z) (k : kind) (V : list Z) (old : list Z) :
    gmap Store.loc (@Store.object Z) :=
  <[4%positive := Store.Matrix 1%positive]>
    (<[3%positive := Store.IntArray old]>
       (<[2%positive := Store.ValArray k (vec V)]>
          (<[1%positive := Store.IntArray P]> ∅))).

(** ** Binding matrices (src/cbind.cpp) *)

(** What a C++ function throws: a [std::runtime_error], or a string
    literal ([throw "..."]). *)
Inductive cpp_exception :=
  | runtime_error (what : string)
  | string_literal (message : string).

Inductive cpp_outcome (A : Type) :=
  | Value (a : A)
  | Throws (e : cpp_exception).
Arguments Value {A} a.
Arguments Throws {A} e.

Section bind.
(** The matrices of the tatami library, shared by pointer, with their
    numbers of rows and of columns, and [tatami::make_DelayedBind<D>],
    which combines matrices along rows ([D] = 0) or columns ([D] = 1). *)
Context {Matrix : Type}.
Variables nrow ncol : Matrix → nat.
Variable make_DelayedBind : nat → list Matrix → Matrix.

(** The loop of [cbind] from [i = 1] on. *)
Fixpoint cbind_loop (NR : nat) (rest collected : list Matrix) :
    cpp_outcome (list Matrix) :=
  match rest with
  | [] => Value collected
  | current :: rest' =>
      if decide (nrow current ≠ NR)
      then Throws (string_literal "all matrices to cbind should have the same number of rows")
      else cbind_loop NR rest' (collected ++ [current])
  end.

(** [cbind(n, mats)], [mats] being the [n] matrices the offsets point to. *)
Definition cbind (mat_ptrs : list Matrix) : cpp_outcome Matrix :=
  match mat_ptrs with
  | [] => Throws (runtime_error "need at least one matrix to cbind")
  | first :: others =>
      let NR := nrow first in
      match cbind_loop NR others [first] with
      | Value collected => Value (make_DelayedBind 1 collected)
      | Throws e => Throws e
      end
  end.

(** The loop of [rbind] from [i = 1] on. *)
Fixpoint rbind_loop (NC : nat) (rest collected : list Matrix) :
    cpp_outcome (list Matrix) :=
  match rest with
  | [] => Value collected
  | current :: rest' =>
      if decide (ncol current ≠ NC)
      then Throws (string_literal "all matrices to rbind should have the same number of columns")
      else rbind_loop NC rest' (collected ++ [current])
  end.

Definition rbind (mat_ptrs : list Matrix) : cpp_outcome Matrix :=
  match mat_ptrs with
  | [] => Throws (runtime_error "need at least one matrix to cbind")
  | first :: others =>
      let NC := ncol first in
      match rbind_loop NC others [first] with
      | Value collected => Value (make_DelayedBind 0 collected)
      | Throws e => Throws e
      end
  end.
End bind.

(** ** Marker scores (src/score_markers.cpp) *)

Module ScoreMarkers.
Section results.
(** The statistics are [double]s, which the wrapper moves and never
    computes with: their type is left open. [scran::average_vectors(N,
    ptrs, out)] averages the vectors that [ptrs] point to, over their
    first [N] entries. *)
Context {D : Type}.
Variable average_vectors : nat → list (list D) → list D.

(** [scran::ScoreMarkers::Results<double>], of which the wrapper's
    constructor and block accessors use [means] and [detected], indexed
    by group, then block, then gene. *)
Record Results := {
  means : list (list (list D));
  detected : list (list (list D))
}.

Record ScoreMarkers_Results := {
  store : Results;
  ave_means : list (list D);
  ave_detected : list (list D)
}.

(** [v[i]] for an [int] index: outside the vector the behaviour is
    undefined ([None]). *)
Definition at_index {A : Type} (v : list A) (i : Z) : option A :=
  if decide (0 ≤ i) then v !! Z.to_nat i else None.

Definition num_groups (r : ScoreMarkers_Results) : nat :=
  length (detected (store r)).

Definition num_blocks (r : ScoreMarkers_Results) : nat :=
  if decide (num_groups r ≠ 0%nat) then
    match detected (store r) with
    | front :: _ => length front
    | [] => 0%nat
    end
  else 0%nat.

(** The loop over the blocks of one group. *)
Fixpoint block_loop (curmeans curdetected : list (list D)) (bs : list nat)
    (mptrs dptrs : list (list D)) : option (list (list D) * list (list D)) :=
  match bs with
  | [] => Some (mptrs, dptrs)
  | b :: bs' =>
      match curmeans !! b, curdetected !! b with
      | Some m, Some d => block_loop curmeans curdetected bs' (mptrs ++ [m]) (dptrs ++ [d])
      | _, _ => None
      end
  end.

(** The loop over the groups. *)
Fixpoint group_loop (s : Results) (gs : list nat)
    (ave_means ave_detected : list (list D)) : option (list (list D) * list (list D)) :=
  match gs with
  | [] => Some (ave_means, ave_detected)
  | g :: gs' =>
      match means s !! g, detected s !! g with
      | Some curmeans, Some curdetected =>
          match block_loop curmeans curdetected (seq 0 (length curmeans)) [] [] with
          | Some (mptrs, dptrs) =>
              match curmeans with
              | front :: _ =>
                  let N := length front in
                  let out_means := average_vectors N mptrs in
                  let out_detected := average_vectors N dptrs in
                  group_loop s gs' (ave_means ++ [out_means]) (ave_detected ++ [out_detected])
              | [] => None
              end
          | None => None
          end
      | _, _ => None
      end
  end.

(** The constructor [ScoreMarkers_Results(Store s)]. *)
Definition from_store (s : Results) : option ScoreMarkers_Results :=
  let this := {| store := s; ave_means := []; ave_detected := [] |} in
  if decide (1 < num_blocks this)%nat then
    match group_loop s (seq 0 (length (means s))) [] [] with
    | Some (am, ad) => Some {| store := s; ave_means := am; ave_detected := ad |}
    | None => None
    end
  else Some this.

(** [means(g, b)] *)
Definition means_at (r : ScoreMarkers_Results) (g b : Z) : option (list D) :=
  if decide (b < 0) then
    if decide (1 < num_blocks r)%nat then at_index (ave_means r) g
    else current ← at_index (means (store r)) g; at_index current 0
  else current ← at_index (means (store r)) g; at_index current b.

(** [detected(g, b)] *)
Definition detected_at (r : ScoreMarkers_Results) (g b : Z) : option (list D) :=
  if decide (b < 0) then
    if decide (1 < num_blocks r)%nat then at_index (ave_detected r) g
    else current ← at_index (detected (store r)) g; at_index current 0
  else current ← at_index (detected (store r)) g; at_index current b.
End results.
End ScoreMarkers.

(** * Proofs *)

(** ** Arrays: basic facts *)

Lemma forEach_from_snoc {A St : Type} (cb : A → nat → St → St) a x i s :
  forEach_from i (a ++ [x]) cb s = cb x (i + length a)%nat (forEach_from i a cb s).
Proof.
  revert i s. induction a as [|y a IH]; intros i s; simpl.
  - by rewrite Nat.add_0_r.
  - rewrite IH. f_equal. lia.
Qed.

Lemma forEach_snoc {A St : Type} (cb : A → nat → St → St) a x s :
  forEach (a ++ [x]) cb s = cb x (length a) (forEach a cb s).
Proof. unfold forEach. by rewrite forEach_from_snoc. Qed.

Section array_facts.
Context {T : Type}.
Variable nan : T.
Implicit Types (a c values : list (option T)) (V W : list T) (k : kind).

Lemma store_Some k v : store nan k (Some v) = Some v.
Proof. by destruct k. Qed.

Lemma array_set_in_range k a x v :
  0 ≤ x < Z.of_nat (length a) →
  array_set nan k a x v = <[Z.to_nat x := store nan k v]> a.
Proof.
  intros Hx. unfold array_set.
  destruct (decide (x < 0)); [lia|].
  destruct (decide (x < Z.of_nat (length a))); [done|lia].
Qed.

Lemma array_get_vec V (i : nat) : array_get (vec V) (Z.of_nat i) = V !! i.
Proof.
  unfold array_get, vec. destruct (decide (0 ≤ Z.of_nat i)); [|lia].
  rewrite Nat2Z.id, list_lookup_fmap. by destruct (V !! i).
Qed.

Lemma array_get_vec_Z V (x : Z) :
  0 ≤ x → array_get (vec V) x = V !! Z.to_nat x.
Proof.
  intros Hx. rewrite <- (Z2Nat.id x) at 1 by done. apply array_get_vec.
Qed.

Lemma length_vec V : length (vec V) = length V.
Proof. apply length_fmap. Qed.
End array_facts.

(** ** The scatter and gather loops *)

Lemma in_range_snoc n p x :
  in_range n (p ++ [x]) ↔ in_range n p ∧ 0 ≤ x < Z.of_nat n.
Proof.
  unfold in_range. rewrite Forall_app, Forall_singleton. tauto.
Qed.

Lemma in_range_lookup n p i x :
  in_range n p → p !! i = Some x → 0 ≤ x < Z.of_nat n.
Proof. intros Hp Hi. by apply (Forall_lookup_1 _ _ _ _ Hp Hi). Qed.

Section scatter.
Context {A : Type}.
Implicit Types (c : list A) (p : list Z) (f : nat → A).

Lemma scatter_snoc f p x c :
  scatter f (p ++ [x]) c = <[Z.to_nat x := f (length p)]> (scatter f p c).
Proof. unfold scatter. by rewrite forEach_snoc. Qed.

Lemma scatter_length f p c : length (scatter f p c) = length c.
Proof.
  induction p as [|x p IH] using rev_ind; [done|].
  by rewrite scatter_snoc, length_insert.
Qed.

(** Position [j] holds what the last write to it stored, and the
    initial element when nothing was written there. *)
Lemma scatter_last f p c (j : nat) :
  in_range (length c) p →
  (∀ i, p !! i = Some (Z.of_nat j) →
        (∀ i', (i < i')%nat → p !! i' ≠ Some (Z.of_nat j)) →
        scatter f p c !! j = Some (f i))
  ∧ ((∀ i, p !! i ≠ Some (Z.of_nat j)) → scatter f p c !! j = c !! j).
Proof.
  induction p as [|x p IH] using rev_ind; intros Hp.
  { split; [intros i Hi; by rewrite lookup_nil in Hi | done]. }
  apply in_range_snoc in Hp as [Hp Hx].
  destruct (IH Hp) as [IH1 IH2]. clear IH.
  rewrite scatter_snoc. split.
  - intros i Hi Hmax.
    destruct (decide (i = length p)) as [->|Hne].
    + rewrite list_lookup_middle in Hi by done. simplify_eq.
      rewrite Nat2Z.id. apply list_lookup_insert_eq.
      rewrite scatter_length. lia.
    + assert (i < length p)%nat as Hlt.
      { apply lookup_lt_Some in Hi. rewrite length_app in Hi. simpl in Hi. lia. }
      rewrite lookup_app_l in Hi by done.
      assert (x ≠ Z.of_nat j) as Hxj.
      { intros ->. apply (Hmax (length p) Hlt). by apply list_lookup_middle. }
      rewrite list_lookup_insert_ne by lia.
      apply IH1; [done|]. intros i' Hi' Hp'.
      apply (Hmax i' Hi'). rewrite lookup_app_l; [done|].
      by apply lookup_lt_Some in Hp'.
  - intros Hno.
    assert (x ≠ Z.of_nat j) as Hxj.
    { intros ->. apply (Hno (length p)). by apply list_lookup_middle. }
    rewrite list_lookup_insert_ne by lia.
    apply IH2. intros i Hi. apply (Hno i).
    rewrite lookup_app_l; [done|]. by apply lookup_lt_Some in Hi.
Qed.

(** A property of the initial and of the stored elements holds of all
    elements of the result. *)
Lemma scatter_Forall (Q : A → Prop) f p c :
  Forall Q c → (∀ i, (i < length p)%nat → Q (f i)) → Forall Q (scatter f p c).
Proof.
  induction p as [|x p IH] using rev_ind; intros Hc Hf; [done|].
  rewrite scatter_snoc. rewrite length_app in Hf; simpl in Hf.
  apply Forall_insert; [|apply Hf; lia].
  apply IH; [done|]. intros i Hi. apply Hf. lia.
Qed.

(** When [p] has no repeats, entry [i] decides position [p[i]]. *)
Lemma scatter_NoDup f p c i x :
  in_range (length c) p → NoDup p → p !! i = Some x →
  scatter f p c !! Z.to_nat x = Some (f i).
Proof.
  intros Hp Hnd Hi.
  pose proof (in_range_lookup _ _ _ _ Hp Hi) as Hx.
  destruct (scatter_last f p c (Z.to_nat x) Hp) as [H1 _].
  rewrite Z2Nat.id in H1 by lia.
  apply H1; [done|]. intros i' Hlt Hi'.
  pose proof (NoDup_lookup _ _ _ _ Hnd Hi Hi'). lia.
Qed.

Lemma gather_spec (g : Z → A) p c :
  (length p ≤ length c)%nat → gather g p c = (g <$> p) ++ drop (length p) c.
Proof.
  unfold gather.
  induction p as [|x p IH] using rev_ind; intros Hl; [done|].
  rewrite length_app in Hl; simpl in Hl.
  rewrite forEach_snoc, IH by lia.
  rewrite fmap_app, length_app. simpl.
  rewrite insert_app_r_alt by (rewrite length_fmap; lia).
  rewrite length_fmap, Nat.sub_diag, <- app_assoc. f_equal.
  destruct (lookup_lt_is_Some_2 c (length p)) as [y Hy]; [lia|].
  rewrite (drop_S _ _ _ Hy). simpl. by rewrite Nat.add_1_r.
Qed.
End scatter.

Lemma forEach_ext_inv {A St : Type} (I : St → Prop) (cb cb' : A → nat → St → St) a s :
  I s →
  (∀ x i s, a !! i = Some x → I s → cb x i s = cb' x i s ∧ I (cb' x i s)) →
  forEach a cb s = forEach a cb' s ∧ I (forEach a cb' s).
Proof.
  induction a as [|x a IH] using rev_ind; intros Hs Hcb; [done|].
  destruct IH as [IH1 IH2]; [done| |].
  { intros y i s' Hy. apply Hcb. rewrite lookup_app_l; [done|].
    by apply lookup_lt_Some in Hy. }
  rewrite !forEach_snoc, IH1.
  apply Hcb; [|done]. by apply list_lookup_middle.
Qed.

(** ** Permutations: basic facts *)

Lemma bijection_in_range P : bijection P → in_range (length P) P.
Proof. by intros [_ ?]. Qed.

Lemma bijection_NoDup P : bijection P → NoDup P.
Proof. by intros [? _]. Qed.

(** A Permutation is a rearrangement of 0, ..., n-1. *)
Lemma bijection_seqZ P : bijection P ↔ P ≡ₚ seqZ 0 (Z.of_nat (length P)).
Proof.
  split.
  - intros [Hnd Hr]. apply submseteq_length_Permutation.
    + apply NoDup_submseteq; [done|]. intros x Hx.
      apply elem_of_seqZ. rewrite Forall_forall in Hr. specialize (Hr x Hx). lia.
    + rewrite length_seqZ. lia.
  - intros Hp. split.
    + rewrite Hp. apply NoDup_seqZ.
    + apply Forall_forall. intros x Hx. rewrite Hp in Hx.
      apply elem_of_seqZ in Hx. lia.
Qed.

(** Every value in [0, n) appears, at exactly one index. *)
Lemma bijection_once P j :
  bijection P → 0 ≤ j < Z.of_nat (length P) →
  ∃ i, P !! i = Some j ∧ ∀ i', P !! i' = Some j → i' = i.
Proof.
  intros HP Hj.
  assert (j ∈ P) as Hin.
  { apply bijection_seqZ in HP. rewrite HP. apply elem_of_seqZ. lia. }
  apply list_elem_of_lookup in Hin as [i Hi]. exists i. split; [done|].
  intros i' Hi'. by apply (NoDup_lookup P i' i j (bijection_NoDup _ HP)).
Qed.

(** ** The three functions as scatter and gather loops *)

Section loops.
Context {T : Type}.
Variable nan : T.
Implicit Types (values : list (option T)) (V W : list T) (k : kind).
Implicit Types (p P : list Z).

Lemma permuteVector_scatter k P values :
  in_range (length values) P →
  permuteVector nan k (Perm P) values
  = scatter (λ i, store nan k (array_get values (Z.of_nat i))) P values.
Proof.
  intros HP. unfold permuteVector, scatter, slice.
  apply (forEach_ext_inv (λ c, length c = length values)); [done|].
  intros x i c Hx Hc. rewrite length_insert. split; [|done].
  apply array_set_in_range. rewrite Hc. by apply (in_range_lookup _ P i).
Qed.

Lemma unpermuteVector_gather k P values :
  (length P ≤ length values)%nat →
  unpermuteVector nan k (Perm P) values
  = gather (λ x, store nan k (array_get values x)) P values.
Proof.
  intros HP. unfold unpermuteVector, gather, slice.
  apply (forEach_ext_inv (λ c, length c = length values)); [done|].
  intros x i c Hx Hc. rewrite length_insert. split; [|done].
  rewrite array_set_in_range, Nat2Z.id; [done|].
  apply lookup_lt_Some in Hx. lia.
Qed.

(** [permuteVector] on a vector of the permutation's length. *)
Lemma permuteVector_vec k P V :
  in_range (length V) P → (length P ≤ length V)%nat →
  ∃ W, permuteVector nan k (Perm P) (vec V) = vec W
     ∧ length W = length V
     ∧ W = scatter (λ i, default nan (V !! i)) P V.
Proof.
  intros HP Hl. exists (scatter (λ i, default nan (V !! i)) P V).
  split; [|split; [apply scatter_length|done]].
  rewrite permuteVector_scatter by (by rewrite length_vec).
  unfold scatter, vec.
  induction P as [|x P IH] using rev_ind; [done|].
  apply in_range_snoc in HP as [HP Hx].
  rewrite length_app in Hl; simpl in Hl.
  rewrite !forEach_snoc, IH by (done || lia).
  rewrite list_fmap_insert. f_equal.
  fold (vec V). rewrite array_get_vec.
  destruct (lookup_lt_is_Some_2 V (length P)) as [v ->]; [lia|].
  by rewrite store_Some.
Qed.

(** [unpermuteVector] on a vector of the permutation's length. *)
Lemma unpermuteVector_vec k P W :
  in_range (length W) P → length P = length W →
  ∃ V, unpermuteVector nan k (Perm P) (vec W) = vec V
     ∧ length V = length W
     ∧ ∀ i x, P !! i = Some x → V !! i = W !! Z.to_nat x.
Proof.
  intros HP Hl. exists ((λ x, default nan (W !! Z.to_nat x)) <$> P).
  assert (∀ i x, P !! i = Some x →
            ((λ x, default nan (W !! Z.to_nat x)) <$> P) !! i = W !! Z.to_nat x) as Hlk.
  { intros i x Hi. rewrite list_lookup_fmap, Hi. simpl.
    pose proof (in_range_lookup _ _ _ _ HP Hi) as Hx.
    destruct (lookup_lt_is_Some_2 W (Z.to_nat x)) as [w ->]; [lia|done]. }
  split; [|split; [by rewrite length_fmap|done]].
  rewrite unpermuteVector_gather by (rewrite length_vec; lia).
  rewrite gather_spec by (rewrite length_vec; lia).
  rewrite drop_ge, app_nil_r by (rewrite length_vec; lia).
  unfold vec. rewrite <- list_fmap_compose.
  apply list_eq. intros i. rewrite !list_lookup_fmap.
  destruct (P !! i) as [x|] eqn:Hi; [|done]. simpl. f_equal.
  pose proof (in_range_lookup _ _ _ _ HP Hi) as Hx.
  fold (vec W). rewrite array_get_vec_Z by lia.
  destruct (lookup_lt_is_Some_2 W (Z.to_nat x)) as [w ->]; [lia|].
  by rewrite store_Some.
Qed.
End loops.

(** ** The store functions compute the contents functions *)

Section simulation.
Context {T : Type}.
Variable nan : T.
Abbreviation heap := (gmap Store.loc (@Store.object T)).
Implicit Types (h : heap) (l : Store.loc) (P : list Z).

Lemma bind_run {A B} (m : Store.M A) (f : A → Store.M B) h a h' :
  m h = Some (Returned a, h') → Store.bind m f h = f a h'.
Proof. intros Hm. unfold Store.bind. by rewrite Hm. Qed.

Lemma bind_throw {A B} (m : Store.M A) (f : A → Store.M B) h msg h' :
  m h = Some (Thrown msg, h') → Store.bind m f h = Some (Thrown msg, h').
Proof. intros Hm. unfold Store.bind. by rewrite Hm. Qed.

Lemma deref_run h l o :
  h !! l = Some o → Store.deref l h = Some (Returned o, h).
Proof. intros Hl. unfold Store.deref. by rewrite Hl. Qed.

Lemma fresh_ne h l o : h !! l = Some o → l ≠ fresh (dom h).
Proof.
  intros Hl ->. pose proof (is_fresh (dom h)) as Hf.
  apply not_elem_of_dom in Hf. congruence.
Qed.

Lemma fresh_None h : h !! fresh (dom h) = None.
Proof. apply not_elem_of_dom, is_fresh. Qed.

Lemma length_run h l P :
  h !! l = Some (Store.IntArray P) →
  Store.length l h = Some (Returned (length P), h).
Proof.
  intros Hl. unfold Store.length. by rewrite (bind_run _ _ _ _ _ (deref_run _ _ _ Hl)).
Qed.

Lemma int_read_run h l P i :
  h !! l = Some (Store.IntArray P) →
  Store.int_read l i h = Some (Returned (int_get P i), h).
Proof.
  intros Hl. unfold Store.int_read. by rewrite (bind_run _ _ _ _ _ (deref_run _ _ _ Hl)).
Qed.

Lemma int_write_run h l P x v :
  h !! l = Some (Store.IntArray P) →
  Store.int_write l x v h
  = Some (Returned (), <[l := Store.IntArray (int_set P x v)]> h).
Proof.
  intros Hl. unfold Store.int_write. by rewrite (bind_run _ _ _ _ _ (deref_run _ _ _ Hl)).
Qed.

Lemma read_run h l k a i :
  h !! l = Some (Store.ValArray k a) →
  Store.read l i h = Some (Returned (array_get a i), h).
Proof.
  intros Hl. unfold Store.read. by rewrite (bind_run _ _ _ _ _ (deref_run _ _ _ Hl)).
Qed.

Lemma write_run h l k a x v :
  h !! l = Some (Store.ValArray k a) →
  Store.write nan l x v h
  = Some (Returned (), <[l := Store.ValArray k (array_set nan k a x v)]> h).
Proof.
  intros Hl. unfold Store.write. by rewrite (bind_run _ _ _ _ _ (deref_run _ _ _ Hl)).
Qed.

Lemma int_get_nat P (i : nat) : int_get P (Z.of_nat i) = P !! i.
Proof.
  unfold int_get. destruct (decide (0 ≤ Z.of_nat i)); [|lia]. by rewrite Nat2Z.id.
Qed.

(** The loop on the store follows the loop on contents, for any
    relation [R] between the loop's state and the store that the
    callback maintains and under which the permutation stays in place. *)
Lemma forEach_at_sim {St : Type} (R : St → heap → Prop)
    (cbm : Z → nat → Store.M unit) (cb : Z → nat → St → St) l P :
  (∀ s h, R s h → h !! l = Some (Store.IntArray P)) →
  (∀ s h x i, R s h → P !! i = Some x →
     ∃ h', cbm x i h = Some (Returned (), h') ∧ R (cb x i s) h') →
  ∀ rest i0 s h, R s h → drop i0 P = rest →
    ∃ h', Store.forEach_at l cbm (seq i0 (length rest)) h = Some (Returned (), h')
        ∧ R (forEach_from i0 rest cb s) h'.
Proof.
  intros Hperm Hcb. induction rest as [|x rest IH]; intros i0 s h HR Hdrop.
  { exists h. by split. }
  assert (P !! i0 = Some x) as Hx.
  { rewrite <- (Nat.add_0_r i0), <- lookup_drop, Hdrop. done. }
  assert (drop (S i0) P = rest) as Hrest.
  { rewrite (drop_S _ _ _ Hx) in Hdrop. by simplify_eq. }
  destruct (Hcb s h x i0 HR Hx) as (h1 & Hstep & HR1).
  destruct (IH (S i0) _ h1 HR1 Hrest) as (h2 & Hloop & HR2).
  exists h2. split; [|done]. simpl.
  rewrite (bind_run _ _ _ _ _ (int_read_run _ _ _ _ (Hperm _ _ HR))).
  rewrite int_get_nat, Hx. by rewrite (bind_run _ _ _ _ _ Hstep).
Qed.

Lemma forEach_sim {St : Type} (R : St → heap → Prop)
    (cbm : Z → nat → Store.M unit) (cb : Z → nat → St → St) l P s h :
  (∀ s h, R s h → h !! l = Some (Store.IntArray P)) →
  (∀ s h x i, R s h → P !! i = Some x →
     ∃ h', cbm x i h = Some (Returned (), h') ∧ R (cb x i s) h') →
  R s h →
  ∃ h', Store.forEach l cbm h = Some (Returned (), h') ∧ R (forEach P cb s) h'.
Proof.
  intros Hperm Hcb HR. unfold Store.forEach.
  rewrite (bind_run _ _ _ _ _ (length_run _ _ _ (Hperm _ _ HR))).
  by apply (forEach_at_sim R cbm cb l P Hperm Hcb P 0%nat).
Qed.

Lemma slice_run h l o :
  h !! l = Some o → (∀ rows, o ≠ Store.Matrix rows) →
  Store.slice l h = Some (Returned (fresh (dom h)), <[fresh (dom h) := o]> h).
Proof.
  intros Hl Ho. unfold Store.slice.
  rewrite (bind_run _ _ _ _ _ (deref_run _ _ _ Hl)).
  destruct o; [done|done|]. by destruct (Ho rows).
Qed.

Lemma resolve_inv h l layered :
  resolve h l = Some layered →
  (h !! l = Some (Store.IntArray (perm_of layered)) ∧ layered = Perm (perm_of layered))
  ∨ (∃ rows, h !! l = Some (Store.Matrix rows)
           ∧ h !! rows = Some (Store.IntArray (perm_of layered))
           ∧ layered = Layered {| permutation := perm_of layered |}).
Proof.
  unfold resolve. intros Hres.
  destruct (h !! l) as [[p| |rows]|] eqn:Hl; try done.
  - left. by simplify_eq.
  - right. exists rows.
    destruct (h !! rows) as [[p| |]|] eqn:Hr; try done. by simplify_eq.
Qed.

(** Telling a matrix from a vector and taking its permutation reads
    the store only: the vector found is the one [resolve] names, in
    any store that extends the one [layered] was resolved in. *)
Lemma spawn_run h l layered :
  resolve h l = Some layered →
  ∃ lperm, h !! lperm = Some (Store.IntArray (perm_of layered))
    ∧ ∀ h' B (f : Store.loc → Store.M B), h ⊆ h' →
        Store.bind (Store.instanceof_LayeredSparseMatrix l)
          (λ is_matrix,
             Store.bind (if is_matrix : bool then Store.permutation l
                         else Store.ret l) f) h'
        = f lperm h'.
Proof.
  intros [[Hl _]|(rows & Hl & Hr & _)]%resolve_inv.
  - exists l. split; [done|]. intros h' B f Hsub.
    pose proof (lookup_weaken _ _ _ _ Hl Hsub) as Hl'.
    unfold Store.instanceof_LayeredSparseMatrix.
    rewrite (bind_run _ _ _ _ _ (bind_run _ _ _ _ _ (deref_run _ _ _ Hl'))).
    done.
  - exists rows. split; [done|]. intros h' B f Hsub.
    pose proof (lookup_weaken _ _ _ _ Hl Hsub) as Hl'.
    unfold Store.instanceof_LayeredSparseMatrix.
    rewrite (bind_run _ _ _ _ _ (bind_run _ _ _ _ _ (deref_run _ _ _ Hl'))).
    unfold Store.permutation.
    by rewrite (bind_run _ _ _ _ _ (bind_run _ _ _ _ _ (deref_run _ _ _ Hl'))).
Qed.

(** [permuteVector] leaves the store as it was, but for one new array
    that holds the permuted contents, and returns that array. *)
Lemma permuteVector_run h layered lp lv k values :
  resolve h lp = Some layered →
  h !! lv = Some (Store.ValArray k values) →
  Store.permuteVector nan lp lv h
  = Some (Returned (fresh (dom h)),
          <[fresh (dom h) := Store.ValArray k (permuteVector nan k layered values)]> h).
Proof.
  intros Hres Hlv. unfold Store.permuteVector.
  rewrite (bind_run _ _ _ _ _ (slice_run _ _ _ Hlv ltac:(done))).
  destruct (spawn_run _ _ _ Hres) as (lperm & Hperm & Hspawn).
  set (l := fresh (dom h)).
  rewrite Hspawn by apply insert_subseteq, fresh_None.
  destruct (forEach_sim
    (λ c h', h' = <[l := Store.ValArray k c]> h)
    (λ x i, Store.bind (Store.read lv (Z.of_nat i)) (λ v, Store.write nan l x v))
    (λ x i copy, array_set nan k copy x (array_get values (Z.of_nat i)))
    lperm (perm_of layered) (slice values) (<[l := Store.ValArray k values]> h))
    as (h' & Hloop & ->).
  - intros c h' ->. rewrite lookup_insert_ne; [done|]. symmetry. by eapply fresh_ne.
  - intros c h' x i -> Hx. eexists. split; [|reflexivity].
    erewrite bind_run; last first.
    { eapply read_run. rewrite lookup_insert_ne; [done|]. symmetry. by eapply fresh_ne. }
    erewrite write_run by apply lookup_insert_eq.
    by rewrite insert_insert_eq.
  - done.
  - rewrite (bind_run _ _ _ _ _ Hloop). unfold Store.ret.
    unfold permuteVector. by destruct layered.
Qed.

Lemma unpermuteVector_run h layered lp lv k values :
  resolve h lp = Some layered →
  h !! lv = Some (Store.ValArray k values) →
  Store.unpermuteVector nan lp lv h
  = Some (Returned (fresh (dom h)),
          <[fresh (dom h) := Store.ValArray k (unpermuteVector nan k layered values)]> h).
Proof.
  intros Hres Hlv. unfold Store.unpermuteVector.
  rewrite (bind_run _ _ _ _ _ (slice_run _ _ _ Hlv ltac:(done))).
  destruct (spawn_run _ _ _ Hres) as (lperm & Hperm & Hspawn).
  set (l := fresh (dom h)).
  rewrite Hspawn by apply insert_subseteq, fresh_None.
  destruct (forEach_sim
    (λ c h', h' = <[l := Store.ValArray k c]> h)
    (λ x i, Store.bind (Store.read lv x) (λ v, Store.write nan l (Z.of_nat i) v))
    (λ x i copy, array_set nan k copy (Z.of_nat i) (array_get values x))
    lperm (perm_of layered) (slice values) (<[l := Store.ValArray k values]> h))
    as (h' & Hloop & ->).
  - intros c h' ->. rewrite lookup_insert_ne; [done|]. symmetry. by eapply fresh_ne.
  - intros c h' x i -> Hx. eexists. split; [|reflexivity].
    erewrite bind_run; last first.
    { eapply read_run. rewrite lookup_insert_ne; [done|]. symmetry. by eapply fresh_ne. }
    erewrite write_run by apply lookup_insert_eq.
    by rewrite insert_insert_eq.
  - done.
  - rewrite (bind_run _ _ _ _ _ Hloop). unfold Store.ret.
    unfold unpermuteVector. by destruct layered.
Qed.

Lemma same_loop_run h lo lp old P :
  h !! lo = Some (Store.IntArray old) →
  h !! lp = Some (Store.IntArray P) →
  ∀ rest i0 (f : nat → Z → nat * Z),
    drop i0 P = rest → (∀ j x, f j x = ((i0 + j)%nat, x)) →
    Store.same_loop (T:=T) lo lp (seq i0 (length rest)) h
    = Some (Returned (same_loop old (imap f rest)), h).
Proof.
  intros Hlo Hlp. induction rest as [|x rest IH]; intros i0 f Hdrop Hf; [done|].
  assert (P !! i0 = Some x) as Hx.
  { rewrite <- (Nat.add_0_r i0), <- lookup_drop, Hdrop. done. }
  assert (drop (S i0) P = rest) as Hrest.
  { rewrite (drop_S _ _ _ Hx) in Hdrop. by simplify_eq. }
  simpl. rewrite Hf, Nat.add_0_r.
  rewrite (bind_run _ _ _ _ _ (int_read_run _ _ _ _ Hlp)).
  rewrite (bind_run _ _ _ _ _ (int_read_run _ _ _ _ Hlo)).
  rewrite (int_get_nat P), Hx.
  destruct (decide (int_get old (Z.of_nat i0) ≠ Some x)); [done|].
  apply IH; [done|]. intros j y. unfold compose. rewrite Hf. f_equal. lia.
Qed.

(** The part of [updatePermutation] after the length check. *)
Lemma update_body_run h lo lperm old P (spawnPerm : Store.M Store.loc) :
  h !! lo = Some (Store.IntArray old) →
  h !! lperm = Some (Store.IntArray P) →
  (∀ h' B (f : Store.loc → Store.M B), h ⊆ h' → Store.bind spawnPerm f h' = f lperm h') →
  Store.bind
    (Store.bind spawnPerm (λ perm,
       Store.bind (Store.length perm) (λ len, Store.same_loop lo perm (seq 0 len))))
    (λ same : bool,
       if same then Store.ret None
       else Store.bind (Store.slice lo) (λ output,
              Store.bind spawnPerm (λ perm,
                Store.bind
                  (Store.forEach perm (λ x i,
                     Store.bind (Store.int_read lo (Z.of_nat i))
                       (λ v, Store.int_write output x v)))
                  (λ _, Store.ret (Some output))))) h
  = update_result h
      (if same_loop old (entries P) then Returned None
       else Returned (Some (forEach P
              (λ x i output, int_set output x (int_get old (Z.of_nat i))) (slice old)))).
Proof.
  intros Hlo Hlp Hspawn.
  erewrite bind_run; last first.
  { rewrite Hspawn by done. erewrite bind_run by by apply length_run.
    by apply (same_loop_run h lo lperm old P Hlo Hlp P 0%nat pair). }
  fold (entries P). destruct (same_loop old (entries P)); [done|].
  rewrite (bind_run _ _ _ _ _ (slice_run _ _ _ Hlo ltac:(done))).
  set (l := fresh (dom h)).
  rewrite Hspawn by apply insert_subseteq, fresh_None.
  destruct (forEach_sim
    (λ c h', h' = <[l := Store.IntArray c]> h)
    (λ x i, Store.bind (Store.int_read lo (Z.of_nat i)) (λ v, Store.int_write l x v))
    (λ x i output, int_set output x (int_get old (Z.of_nat i)))
    lperm P (slice old) (<[l := Store.IntArray old]> h))
    as (h' & Hloop & ->).
  - intros c h' ->. rewrite lookup_insert_ne; [done|]. symmetry. by eapply fresh_ne.
  - intros c h' x i -> Hx. eexists. split; [|reflexivity].
    erewrite bind_run; last first.
    { eapply int_read_run. rewrite lookup_insert_ne; [done|]. symmetry. by eapply fresh_ne. }
    erewrite int_write_run by apply lookup_insert_eq.
    by rewrite insert_insert_eq.
  - done.
  - by rewrite (bind_run _ _ _ _ _ Hloop).
Qed.

Lemma updatePermutation_run h layered lp lo old :
  resolve h lp = Some layered →
  h !! lo = Some (Store.IntArray old) →
  Store.updatePermutation lp lo h = update_result h (updatePermutation layered old).
Proof.
  intros [[Hlp ->]|(rows & Hlp & Hrows & ->)]%resolve_inv Hlo;
    unfold Store.updatePermutation, updatePermutation;
    set (P := perm_of layered) in *.
  - unfold Store.instanceof_LayeredSparseMatrix.
    rewrite (bind_run _ _ _ _ _ (bind_run _ _ _ _ _ (deref_run _ _ _ Hlp))).
    simpl Store.bind at 2.
    destruct (decide (length old ≠ length P)) as [Hne|He].
    + erewrite bind_throw; [done|].
      erewrite bind_run by by apply length_run.
      erewrite bind_run by by apply length_run.
      by rewrite decide_True.
    + erewrite bind_run; last first.
      { erewrite bind_run by by apply length_run.
        erewrite bind_run by by apply length_run.
        by rewrite decide_False. }
      by apply (update_body_run h lo lp old P).
  - unfold Store.instanceof_LayeredSparseMatrix.
    rewrite (bind_run _ _ _ _ _ (bind_run _ _ _ _ _ (deref_run _ _ _ Hlp))).
    simpl Store.bind at 2. unfold numberOfRows. simpl permutation.
    assert (Store.numberOfRows lp h = Some (Returned (length P), h)) as Hn.
    { unfold Store.numberOfRows, Store.permutation.
      rewrite (bind_run _ _ _ _ _ (bind_run _ _ _ _ _ (deref_run _ _ _ Hlp))).
      by apply length_run. }
    destruct (decide (length old ≠ length P)) as [Hne|He].
    + erewrite bind_throw; [done|].
      erewrite bind_run by by apply length_run.
      erewrite bind_run by done.
      by rewrite decide_True.
    + erewrite bind_run; last first.
      { erewrite bind_run by by apply length_run.
        erewrite bind_run by done.
        by rewrite decide_False. }
      apply (update_body_run h lo rows old P); [done|done|].
      intros h' B f Hsub. unfold Store.permutation.
      pose proof (lookup_weaken _ _ _ _ Hlp Hsub) as Hlp'.
      by rewrite (bind_run _ _ _ _ _ (bind_run _ _ _ _ _ (deref_run _ _ _ Hlp'))).
Qed.
End simulation.

(** ** [updatePermutation] on contents *)

Lemma same_loop_app old es es' :
  same_loop old (es ++ es') = same_loop old es && same_loop old es'.
Proof.
  induction es as [|[index val] es IH]; [done|]. simpl.
  by destruct (decide (int_get old (Z.of_nat index) ≠ Some val)).
Qed.

Lemma entries_snoc {A : Type} (a : list A) x :
  entries (a ++ [x]) = entries a ++ [(length a, x)].
Proof. unfold entries. rewrite imap_app. simpl. by rewrite Nat.add_0_r. Qed.

(** The comparison loop answers whether [old] agrees with the
    permutation at every index of the permutation. *)
Lemma same_loop_spec old P :
  same_loop old (entries P) = true ↔ ∀ i x, P !! i = Some x → old !! i = Some x.
Proof.
  induction P as [|y P IH] using rev_ind.
  { split; [intros _ i x Hi; by rewrite lookup_nil in Hi|done]. }
  rewrite entries_snoc, same_loop_app, andb_true_iff, IH. simpl.
  rewrite int_get_nat. split.
  - intros [HP Hy] i x Hi.
    destruct (decide (i = length P)) as [->|Hne].
    + rewrite list_lookup_middle in Hi by done. simplify_eq.
      by destruct (decide (old !! length P ≠ Some x)) as [|?%dec_stable].
    + apply HP. rewrite lookup_app_l in Hi; [done|].
      apply lookup_lt_Some in Hi. rewrite length_app in Hi. simpl in Hi. lia.
  - intros H. split.
    + intros i x Hi. apply H. rewrite lookup_app_l; [done|].
      by apply lookup_lt_Some in Hi.
    + rewrite decide_False; [done|]. intros Hne. apply Hne, H.
      by apply list_lookup_middle.
Qed.

Lemma same_loop_eq old P :
  length old = length P → same_loop old (entries P) = true ↔ old = P.
Proof.
  intros Hl. rewrite same_loop_spec. split.
  - intros H. apply list_eq_same_length with (length P); [done..|].
    intros i x y Hi Hx Hy. apply H in Hy. congruence.
  - by intros -> i x Hi.
Qed.

(** After the length check. *)
Lemma updatePermutation_checked P old :
  length old = length P →
  updatePermutation (Perm P) old
  = if same_loop old (entries P) then Returned None
    else Returned (Some (forEach P
           (λ x i output, int_set output x (int_get old (Z.of_nat i))) (slice old))).
Proof.
  intros Hl. unfold updatePermutation. by rewrite decide_False by (by intros ?).
Qed.

(** The second loop of [updatePermutation], for a permutation vector
    whose entries are positions of [old]. *)
Lemma update_loop_scatter P old :
  in_range (length old) P → (length P ≤ length old)%nat →
  forEach P (λ x i output, int_set output x (int_get old (Z.of_nat i))) (slice old)
  = scatter (λ i, default 0 (old !! i)) P old.
Proof.
  intros HP Hl. unfold scatter, slice.
  apply (forEach_ext_inv (λ c, length c = length old)); [done|].
  intros x i c Hx Hc. rewrite length_insert. split; [|done].
  unfold int_set. rewrite Hc, int_get_nat.
  rewrite decide_True; [done|]. by apply (in_range_lookup _ P i).
Qed.

(** What [updatePermutation] returns for a Permutation that differs
    from [old]: the copy of [old], overwritten at the positions the
    Permutation names. *)
Lemma updatePermutation_differs P old :
  bijection P → length old = length P → old ≠ P →
  updatePermutation (Perm P) old
  = Returned (Some (scatter (λ i, default 0 (old !! i)) P old)).
Proof.
  intros HP Hl Hne. rewrite updatePermutation_checked by done.
  destruct (same_loop old (entries P)) eqn:Hsame.
  { by apply same_loop_eq in Hsame. }
  rewrite update_loop_scatter; [done| |lia].
  rewrite Hl. by apply bijection_in_range.
Qed.

Lemma update_scatter_lookup P old i x :
  bijection P → length old = length P → P !! i = Some x →
  scatter (λ i, default 0 (old !! i)) P old !! Z.to_nat x = old !! i.
Proof.
  intros HP Hl Hi.
  rewrite (scatter_NoDup _ P old i x); [| |by apply bijection_NoDup|done].
  - destruct (lookup_lt_is_Some_2 old i) as [y ->]; [|done].
    rewrite Hl. by apply lookup_lt_Some in Hi.
  - rewrite Hl. by apply bijection_in_range.
Qed.

(** ** Properties of the permutation subsystem *)

Lemma default_lookup {A : Type} (d : A) (l : list A) i :
  (i < length l)%nat → Some (default d (l !! i)) = l !! i.
Proof. intros Hi. by destruct (lookup_lt_is_Some_2 l i Hi) as [y ->]. Qed.

(** What [permuteVector] computes for a Permutation. *)
Lemma permuteVector_bijection {T : Type} (nan : T) k P (V : list T) :
  bijection P → length V = length P →
  ∃ W, permuteVector nan k (Perm P) (vec V) = vec W
     ∧ length W = length P
     ∧ ∀ i x, P !! i = Some x → W !! Z.to_nat x = V !! i.
Proof.
  intros HP Hl.
  destruct (permuteVector_vec nan k P V) as (W & HW & HlW & ->); [..|].
  { rewrite Hl. by apply bijection_in_range. }
  { lia. }
  eexists. split; [done|]. split; [by rewrite HlW|].
  intros i x Hi.
  rewrite (scatter_NoDup _ P V i x); [| |by apply bijection_NoDup|done].
  - apply default_lookup. rewrite Hl. by apply lookup_lt_Some in Hi.
  - rewrite Hl. by apply bijection_in_range.
Qed.

(** C4 (forward mapper contract). For a Permutation [P] of length n and a
    vector [V] of length n, [permuteVector(P, V)] returns a new array [W]
    of length n (an array that was not in the store before, the store
    being otherwise as it was) with [W[P[i]] = V[i]] for every [i] in
    [0, n); for [P = [2, 0, 3, 1]] and [V = [10, 20, 30, 40]] it returns
    [[20, 40, 10, 30]]. *)
Theorem permuteVector_contract :
  (∀ (T : Type) (nan : T) (k : kind) (h : gmap Store.loc (@Store.object T))
     (lp lv : Store.loc) (P : list Z) (V : list T),
     bijection P → length V = length P →
     h !! lp = Some (Store.IntArray P) →
     h !! lv = Some (Store.ValArray k (vec V)) →
     ∃ lw W,
       Store.permuteVector nan lp lv h
       = Some (Returned lw, <[lw := Store.ValArray k (vec W)]> h)
       ∧ h !! lw = None
       ∧ permuteVector nan k (Perm P) (vec V) = vec W
       ∧ length W = length P
       ∧ ∀ i x, P !! i = Some x → W !! Z.to_nat x = V !! i)
  ∧ permuteVector 0 Plain (Perm [2; 0; 3; 1]) (vec [10; 20; 30; 40])
    = vec [20; 40; 10; 30].
Proof.
  split; [|reflexivity].
  intros T nan k h lp lv P V HP Hl Hlp Hlv.
  destruct (permuteVector_bijection nan k P V HP Hl) as (W & HW & HlW & Hlk).
  exists (fresh (dom h)), W. split; [|split; [apply fresh_None|done]].
  rewrite <- HW. apply permuteVector_run; [|done].
  unfold resolve. by rewrite Hlp.
Qed.

Lemma permuteVector_contract_witness :
  ∃ lw W,
    Store.permuteVector 0 1%positive 2%positive
      (scenario_store [2; 0; 3; 1] Plain [10; 20; 30; 40])
    = Some (Returned lw,
            <[lw := Store.ValArray Plain (vec W)]>
              (scenario_store [2; 0; 3; 1] Plain [10; 20; 30; 40]))
    ∧ scenario_store [2; 0; 3; 1] Plain [10; 20; 30; 40] !! lw = None
    ∧ permuteVector 0 Plain (Perm [2; 0; 3; 1]) (vec [10; 20; 30; 40]) = vec W
    ∧ length W = length [2; 0; 3; 1]
    ∧ ∀ i x, [2; 0; 3; 1] !! i = Some x → W !! Z.to_nat x = [10; 20; 30; 40] !! i.
Proof.
  apply (proj1 permuteVector_contract Z 0 Plain _ 1%positive 2%positive
           [2; 0; 3; 1] [10; 20; 30; 40]).
  - compute_done.
  - reflexivity.
  - reflexivity.
  - reflexivity.
Defined.

(** C5 (backward mapper contract). For a Permutation [P] of length n and a
    vector [W] of length n, [unpermuteVector(P, W)] returns a new array
    [V] of length n (an array that was not in the store before, the store
    being otherwise as it was) with [V[i] = W[P[i]]] for every [i] in
    [0, n); for [P = [2, 0, 3, 1]], [unpermuteVector(P, [20, 40, 10, 30])]
    returns [[10, 20, 30, 40]]. *)
Theorem unpermuteVector_contract :
  (∀ (T : Type) (nan : T) (k : kind) (h : gmap Store.loc (@Store.object T))
     (lp lw : Store.loc) (P : list Z) (W : list T),
     bijection P → length W = length P →
     h !! lp = Some (Store.IntArray P) →
     h !! lw = Some (Store.ValArray k (vec W)) →
     ∃ lv V,
       Store.unpermuteVector nan lp lw h
       = Some (Returned lv, <[lv := Store.ValArray k (vec V)]> h)
       ∧ h !! lv = None
       ∧ unpermuteVector nan k (Perm P) (vec W) = vec V
       ∧ length V = length P
       ∧ ∀ i x, P !! i = Some x → V !! i = W !! Z.to_nat x)
  ∧ unpermuteVector 0 Plain (Perm [2; 0; 3; 1]) (vec [20; 40; 10; 30])
    = vec [10; 20; 30; 40].
Proof.
  split; [|reflexivity].
  intros T nan k h lp lw P W HP Hl Hlp Hlw.
  destruct (unpermuteVector_vec nan k P W) as (V & HV & HlV & Hlk); [|done|].
  { rewrite Hl. by apply bijection_in_range. }
  exists (fresh (dom h)), V.
  split; [|split; [apply fresh_None|split; [done|split; [lia|done]]]].
  rewrite <- HV. apply unpermuteVector_run; [|done].
  unfold resolve. by rewrite Hlp.
Qed.

Lemma unpermuteVector_contract_witness :
  ∃ lv V,
    Store.unpermuteVector 0 1%positive 2%positive
      (scenario_store [2; 0; 3; 1] Typed [20; 40; 10; 30])
    = Some (Returned lv,
            <[lv := Store.ValArray Typed (vec V)]>
              (scenario_store [2; 0; 3; 1] Typed [20; 40; 10; 30]))
    ∧ scenario_store [2; 0; 3; 1] Typed [20; 40; 10; 30] !! lv = None
    ∧ unpermuteVector 0 Typed (Perm [2; 0; 3; 1]) (vec [20; 40; 10; 30]) = vec V
    ∧ length V = length [2; 0; 3; 1]
    ∧ ∀ i x, [2; 0; 3; 1] !! i = Some x → V !! i = [20; 40; 10; 30] !! Z.to_nat x.
Proof.
  apply (proj1 unpermuteVector_contract Z 0 Typed _ 1%positive 2%positive
           [2; 0; 3; 1] [20; 40; 10; 30]).
  - compute_done.
  - reflexivity.
  - reflexivity.
  - reflexivity.
Defined.

(** C10 (a permutation vector that is not a bijection). For an array [P] of
    length n with entries in [0, n) and a vector [V] of length n,
    [permuteVector(P, V)] returns a vector of length n with no undefined
    entry, whose position [j] holds [V[i]] for the largest [i] with
    [P[i] = j], and [V[j]], carried over from the copy of [V], when no
    entry of [P] is [j]. *)
Theorem permuteVector_malformed {T : Type} (nan : T) (k : kind)
    (P : list Z) (V : list T) :
  length P = length V → in_range (length V) P →
  ∃ W, permuteVector nan k (Perm P) (vec V) = vec W
     ∧ length W = length V
     ∧ ∀ j : nat, (j < length V)%nat →
         (∀ i, P !! i = Some (Z.of_nat j) →
               (∀ i', (i < i')%nat → P !! i' ≠ Some (Z.of_nat j)) →
               W !! j = V !! i)
         ∧ ((∀ i, P !! i ≠ Some (Z.of_nat j)) → W !! j = V !! j).
Proof.
  intros Hl HP.
  destruct (permuteVector_vec nan k P V HP) as (W & HW & HlW & ->); [lia|].
  eexists. split; [done|]. split; [done|]. intros j Hj.
  destruct (scatter_last (λ i, default nan (V !! i)) P V j HP) as [H1 H2].
  split; [|done]. intros i Hi Hmax. rewrite (H1 i Hi Hmax).
  apply default_lookup. rewrite <- Hl. by apply lookup_lt_Some in Hi.
Qed.

Lemma permuteVector_malformed_witness :
  ∃ W, permuteVector 0 Plain (Perm [1; 1; 0; 0]) (vec [10; 20; 30; 40]) = vec W
     ∧ length W = length [10; 20; 30; 40]
     ∧ ∀ j : nat, (j < length [10; 20; 30; 40])%nat →
         (∀ i, [1; 1; 0; 0] !! i = Some (Z.of_nat j) →
               (∀ i', (i < i')%nat → [1; 1; 0; 0] !! i' ≠ Some (Z.of_nat j)) →
               W !! j = [10; 20; 30; 40] !! i)
         ∧ ((∀ i, [1; 1; 0; 0] !! i ≠ Some (Z.of_nat j)) →
            W !! j = [10; 20; 30; 40] !! j).
Proof.
  apply (permuteVector_malformed 0 Plain [1; 1; 0; 0] [10; 20; 30; 40]).
  - reflexivity.
  - compute_done.
Defined.

(** Two lists of one length that agree below it are equal. *)
Lemma list_eq_below {A : Type} (l1 l2 : list A) :
  length l1 = length l2 →
  (∀ i, (i < length l1)%nat → l1 !! i = l2 !! i) → l1 = l2.
Proof.
  intros Hl H. apply list_eq. intros i.
  destruct (decide (i < length l1)%nat); [by apply H|].
  rewrite !lookup_ge_None_2; [done|lia..].
Qed.

(** C2 (round-trip law). For a Permutation [P] of length n and a vector
    [V] of length n, [unpermuteVector(P, permuteVector(P, V))] is [V],
    element for element, and for a vector [W] of length n,
    [permuteVector(P, unpermuteVector(P, W))] is [W]. *)
Theorem permute_round_trip {T : Type} (nan : T) (k : kind) (P : list Z)
    (V W : list T) :
  bijection P → length V = length P → length W = length P →
  unpermuteVector nan k (Perm P) (permuteVector nan k (Perm P) (vec V)) = vec V
  ∧ permuteVector nan k (Perm P) (unpermuteVector nan k (Perm P) (vec W)) = vec W.
Proof.
  intros HP HlV HlW. pose proof (bijection_in_range P HP) as Hr. split.
  - destruct (permuteVector_bijection nan k P V HP HlV) as (W' & -> & HlW' & HW').
    destruct (unpermuteVector_vec nan k P W') as (V' & -> & HlV' & HV');
      [by rewrite HlW'|done|].
    f_equal. apply list_eq_below; [lia|]. intros i Hi.
    destruct (lookup_lt_is_Some_2 P i) as [x Hx]; [lia|].
    by rewrite (HV' i x Hx), (HW' i x Hx).
  - destruct (unpermuteVector_vec nan k P W) as (V' & -> & HlV' & HV');
      [by rewrite HlW|done|].
    destruct (permuteVector_bijection nan k P V' HP) as (W' & -> & HlW' & HW');
      [lia|].
    f_equal. apply list_eq_below; [lia|]. intros j Hj.
    destruct (bijection_once P (Z.of_nat j) HP) as (i & Hi & _); [lia|].
    pose proof (HW' i _ Hi) as H1. pose proof (HV' i _ Hi) as H2.
    rewrite Nat2Z.id in H1, H2. congruence.
Qed.

Lemma permute_round_trip_witness :
  unpermuteVector 0 Plain (Perm [2; 0; 3; 1])
    (permuteVector 0 Plain (Perm [2; 0; 3; 1]) (vec [10; 20; 30; 40]))
  = vec [10; 20; 30; 40]
  ∧ permuteVector 0 Plain (Perm [2; 0; 3; 1])
      (unpermuteVector 0 Plain (Perm [2; 0; 3; 1]) (vec [20; 40; 10; 30]))
    = vec [20; 40; 10; 30].
Proof.
  apply (permute_round_trip 0 Plain [2; 0; 3; 1]).
  - compute_done.
  - reflexivity.
  - reflexivity.
Defined.

(** C6 (no-op detection). For two permutation arrays of one length,
    [updatePermutation(newP, oldP)] returns the no-op signal ([null]) if
    and only if [oldP[i] == newP[i]] at every index [i]; so
    [updatePermutation(P, P)] returns it for every [P]. *)
Theorem updatePermutation_noop (oldP newP : list Z) :
  length oldP = length newP →
  (updatePermutation (Perm newP) oldP = Returned None
   ↔ ∀ i, (i < length newP)%nat → oldP !! i = newP !! i)
  ∧ updatePermutation (Perm newP) newP = Returned None.
Proof.
  intros Hl. split.
  - rewrite updatePermutation_checked by done.
    destruct (same_loop oldP (entries newP)) eqn:Hsame.
    + apply same_loop_eq in Hsame as ->; [|done]. by split.
    + split; [done|]. intros H.
      assert (oldP = newP) as Heq.
      { apply list_eq_below; [done|]. intros i Hi. apply H. by rewrite <- Hl. }
      apply same_loop_eq in Heq; [|done]. congruence.
  - rewrite updatePermutation_checked by done.
    by rewrite (proj2 (same_loop_eq newP newP eq_refl) eq_refl).
Qed.

Lemma updatePermutation_noop_witness :
  (updatePermutation (Perm [1; 0; 2; 3]) [0; 1; 2; 3] = Returned None
   ↔ ∀ i, (i < length [1; 0; 2; 3])%nat → [0; 1; 2; 3] !! i = [1; 0; 2; 3] !! i)
  ∧ updatePermutation (Perm [1; 0; 2; 3]) [1; 0; 2; 3] = Returned None.
Proof.
  apply (updatePermutation_noop [0; 1; 2; 3] [1; 0; 2; 3]). reflexivity.
Defined.

(** C7 (construction). For two permutation arrays of one length n that
    differ at some index, [newP] a Permutation, [updatePermutation(newP,
    oldP)] returns a new array [Q] of length n (an array that was not in
    the store before, the store being otherwise as it was): the copy of
    [oldP], overwritten so that [Q[newP[i]] = oldP[i]] for every [i] in
    [0, n). For [oldP = [0, 1, 2, 3]] and [newP = [1, 0, 2, 3]] it
    returns [[1, 0, 2, 3]]. *)
Theorem updatePermutation_construction :
  (∀ (T : Type) (h : gmap Store.loc (@Store.object T)) (lnew lold : Store.loc)
     (newP oldP : list Z),
     bijection newP → length oldP = length newP →
     (∃ i, (i < length newP)%nat ∧ oldP !! i ≠ newP !! i) →
     h !! lnew = Some (Store.IntArray newP) →
     h !! lold = Some (Store.IntArray oldP) →
     ∃ lq Q,
       Store.updatePermutation lnew lold h
       = Some (Returned (Some lq), <[lq := Store.IntArray Q]> h)
       ∧ h !! lq = None
       ∧ updatePermutation (Perm newP) oldP = Returned (Some Q)
       ∧ length Q = length newP
       ∧ Q = forEach newP (λ x i output, <[Z.to_nat x := default 0 (oldP !! i)]> output)
               (slice oldP)
       ∧ ∀ i x, newP !! i = Some x → Q !! Z.to_nat x = oldP !! i)
  ∧ updatePermutation (Perm [1; 0; 2; 3]) [0; 1; 2; 3] = Returned (Some [1; 0; 2; 3]).
Proof.
  split; [|reflexivity].
  intros T h lnew lold newP oldP HP Hl (i0 & Hi0 & Hdiff) Hlnew Hlold.
  assert (oldP ≠ newP) as Hne by (by intros ->).
  pose proof (updatePermutation_differs newP oldP HP Hl Hne) as Hupd.
  exists (fresh (dom h)), (scatter (λ i, default 0 (oldP !! i)) newP oldP).
  split; [|split; [apply fresh_None|split; [done|split; [|split; [done|]]]]].
  - rewrite (updatePermutation_run h (Perm newP) lnew lold oldP); [|by unfold resolve; rewrite Hlnew|done].
    by rewrite Hupd.
  - by rewrite scatter_length.
  - intros i x Hi. by apply update_scatter_lookup.
Qed.

Lemma updatePermutation_construction_witness :
  ∃ lq Q,
    Store.updatePermutation 1%positive 2%positive
      (reconciler_store [1; 0; 2; 3] [0; 1; 2; 3])
    = Some (Returned (Some lq),
            <[lq := Store.IntArray Q]> (reconciler_store [1; 0; 2; 3] [0; 1; 2; 3]))
    ∧ reconciler_store [1; 0; 2; 3] [0; 1; 2; 3] !! lq = None
    ∧ updatePermutation (Perm [1; 0; 2; 3]) [0; 1; 2; 3] = Returned (Some Q)
    ∧ length Q = length [1; 0; 2; 3]
    ∧ Q = forEach [1; 0; 2; 3]
            (λ x i output, <[Z.to_nat x := default 0 ([0; 1; 2; 3] !! i)]> output)
            (slice [0; 1; 2; 3])
    ∧ ∀ i x, [1; 0; 2; 3] !! i = Some x → Q !! Z.to_nat x = [0; 1; 2; 3] !! i.
Proof.
  apply (proj1 updatePermutation_construction Z _ 1%positive 2%positive
           [1; 0; 2; 3] [0; 1; 2; 3]).
  - compute_done.
  - reflexivity.
  - exists 0%nat. split; [simpl; lia|discriminate].
  - reflexivity.
  - reflexivity.
Defined.

(** The array [updatePermutation] builds from two Permutations is a
    Permutation. *)
Lemma update_scatter_bijection newP oldP :
  bijection oldP → bijection newP → length oldP = length newP →
  bijection (scatter (λ i, default 0 (oldP !! i)) newP oldP).
Proof.
  intros Hold Hnew Hl. set (Q := scatter _ newP oldP).
  assert (length Q = length oldP) as HlQ by apply scatter_length.
  split.
  - apply NoDup_alt. intros a b x Ha Hb.
    assert (∀ c, Q !! c = Some x → ∃ i, newP !! i = Some (Z.of_nat c) ∧ oldP !! i = Some x) as Hsrc.
    { intros c Hc. pose proof (lookup_lt_Some _ _ _ Hc) as Hlt.
      destruct (bijection_once newP (Z.of_nat c) Hnew) as (i & Hi & _); [lia|].
      exists i. split; [done|].
      pose proof (update_scatter_lookup newP oldP i _ Hnew Hl Hi) as Hlk.
      rewrite Nat2Z.id in Hlk. fold Q in Hlk. congruence. }
    destruct (Hsrc a Ha) as (ia & Hia & Hxa).
    destruct (Hsrc b Hb) as (ib & Hib & Hxb).
    pose proof (NoDup_lookup _ _ _ _ (bijection_NoDup _ Hold) Hxa Hxb) as ->.
    rewrite Hia in Hib. simplify_eq. lia.
  - rewrite HlQ. apply scatter_Forall.
    + by apply bijection_in_range.
    + intros i Hi.
      destruct (lookup_lt_is_Some_2 oldP i) as [y Hy]; [lia|].
      rewrite Hy. simpl.
      by apply (in_range_lookup _ oldP i y (bijection_in_range _ Hold)).
Qed.

(** An array that [updatePermutation] returns is the one built from the
    copy of [oldP]. *)
Lemma updatePermutation_returned newP oldP Q :
  bijection newP → length oldP = length newP →
  updatePermutation (Perm newP) oldP = Returned (Some Q) →
  Q = scatter (λ i, default 0 (oldP !! i)) newP oldP.
Proof.
  intros Hnew Hl Hupd.
  rewrite updatePermutation_checked in Hupd by done.
  destruct (same_loop oldP (entries newP)); [done|].
  rewrite update_loop_scatter in Hupd; [by simplify_eq| |lia].
  rewrite Hl. by apply bijection_in_range.
Qed.

(** C8 (bijection preservation). For Permutations [oldP] and [newP] of one
    length n, when [updatePermutation(newP, oldP)] returns an array [Q],
    every position [j] of [Q] is written exactly once (at the one step [i]
    with [newP[i] = j], which stores [oldP[i]]) and [Q] is a bijection
    over [0, n): every value in [0, n) appears exactly once. *)
Theorem updatePermutation_bijection (oldP newP Q : list Z) :
  bijection oldP → bijection newP → length oldP = length newP →
  updatePermutation (Perm newP) oldP = Returned (Some Q) →
  (∀ j, 0 ≤ j < Z.of_nat (length newP) →
     ∃ i, newP !! i = Some j
        ∧ (∀ i', newP !! i' = Some j → i' = i)
        ∧ Q !! Z.to_nat j = oldP !! i)
  ∧ length Q = length newP
  ∧ bijection Q
  ∧ Q ≡ₚ seqZ 0 (Z.of_nat (length newP))
  ∧ (∀ v, 0 ≤ v < Z.of_nat (length newP) →
       ∃ a, Q !! a = Some v ∧ ∀ a', Q !! a' = Some v → a' = a).
Proof.
  intros Hold Hnew Hl Hupd.
  rewrite (updatePermutation_returned newP oldP Q Hnew Hl Hupd).
  pose proof (update_scatter_bijection newP oldP Hold Hnew Hl) as HQ.
  assert (length (scatter (λ i, default 0 (oldP !! i)) newP oldP) = length newP) as HlQ.
  { by rewrite scatter_length. }
  split; [|split; [done|split; [done|split]]].
  - intros j Hj. destruct (bijection_once newP j Hnew Hj) as (i & Hi & Huniq).
    exists i. split; [done|]. split; [done|]. by apply update_scatter_lookup.
  - rewrite <- HlQ. by apply bijection_seqZ.
  - intros v Hv. apply bijection_once; [done|]. by rewrite HlQ.
Qed.

Lemma updatePermutation_bijection_witness :
  (∀ j, 0 ≤ j < Z.of_nat (length [1; 2; 0]) →
     ∃ i, [1; 2; 0] !! i = Some j
        ∧ (∀ i', [1; 2; 0] !! i' = Some j → i' = i)
        ∧ [2; 1; 0] !! Z.to_nat j = [1; 0; 2] !! i)
  ∧ length [2; 1; 0] = length [1; 2; 0]
  ∧ bijection [2; 1; 0]
  ∧ [2; 1; 0] ≡ₚ seqZ 0 (Z.of_nat (length [1; 2; 0]))
  ∧ (∀ v, 0 ≤ v < Z.of_nat (length [1; 2; 0]) →
       ∃ a, [2; 1; 0] !! a = Some v ∧ ∀ a', [2; 1; 0] !! a' = Some v → a' = a).
Proof.
  apply (updatePermutation_bijection [1; 0; 2] [1; 2; 0] [2; 1; 0]).
  - compute_done.
  - compute_done.
  - reflexivity.
  - reflexivity.
Defined.

(** C9 (no input mutation). A call of [permuteVector], [unpermuteVector]
    or [updatePermutation] completes and leaves every object of the store
    as it was, the permutation array(s) and the vector among them; an
    array it returns was not in the store before the call, so it is none
    of the arguments. *)
Theorem no_input_mutation {T : Type} (nan : T)
    (h : gmap Store.loc (@Store.object T)) (lp lv lold : Store.loc)
    (layered : layered_arg) (k : kind) (values : list (option T)) (old : list Z) :
  resolve h lp = Some layered →
  h !! lv = Some (Store.ValArray k values) →
  h !! lold = Some (Store.IntArray old) →
  (∃ lw h', Store.permuteVector nan lp lv h = Some (Returned lw, h')
      ∧ (∀ l o, h !! l = Some o → h' !! l = Some o)
      ∧ h !! lw = None ∧ is_Some (h' !! lw) ∧ lw ≠ lp ∧ lw ≠ lv)
  ∧ (∃ lw h', Store.unpermuteVector nan lp lv h = Some (Returned lw, h')
      ∧ (∀ l o, h !! l = Some o → h' !! l = Some o)
      ∧ h !! lw = None ∧ is_Some (h' !! lw) ∧ lw ≠ lp ∧ lw ≠ lv)
  ∧ (∃ r h', Store.updatePermutation lp lold h = Some (r, h')
      ∧ (∀ l o, h !! l = Some o → h' !! l = Some o)
      ∧ ∀ lq, r = Returned (Some lq) →
          h !! lq = None ∧ is_Some (h' !! lq) ∧ lq ≠ lp ∧ lq ≠ lold).
Proof.
  intros Hres Hlv Hlold.
  assert (is_Some (h !! lp)) as [op Hlp].
  { unfold resolve in Hres. by destruct (h !! lp). }
  assert (∀ o' l o, h !! l = Some o → <[fresh (dom h) := o']> h !! l = Some o) as Hkeep.
  { intros o' l o Hl. rewrite lookup_insert_ne; [done|]. symmetry. by eapply fresh_ne. }
  split; [|split].
  - eexists _, _. split; [by apply permuteVector_run|].
    split; [apply Hkeep|]. split; [apply fresh_None|].
    split; [by rewrite lookup_insert_eq|].
    split; symmetry; by eapply fresh_ne.
  - eexists _, _. split; [by apply unpermuteVector_run|].
    split; [apply Hkeep|]. split; [apply fresh_None|].
    split; [by rewrite lookup_insert_eq|].
    split; symmetry; by eapply fresh_ne.
  - rewrite (updatePermutation_run h layered lp lold old Hres Hlold).
    destruct (updatePermutation layered old) as [[Q|]|msg]; simpl.
    + eexists _, _. split; [done|]. split; [apply Hkeep|].
      intros lq [= <-]. split; [apply fresh_None|].
      split; [by rewrite lookup_insert_eq|].
      split; symmetry; by eapply fresh_ne.
    + eexists _, _. split; [done|]. split; [done|]. by intros lq [=].
    + eexists _, _. split; [done|]. split; [done|]. by intros lq [=].
Qed.

Lemma no_input_mutation_witness :
  let h := matrix_store [1; 2; 0] Plain [10; 20; 30] [0; 1; 2] in
  (∃ lw h', Store.permuteVector 0 4%positive 2%positive h = Some (Returned lw, h')
      ∧ (∀ l o, h !! l = Some o → h' !! l = Some o)
      ∧ h !! lw = None ∧ is_Some (h' !! lw) ∧ lw ≠ 4%positive ∧ lw ≠ 2%positive)
  ∧ (∃ lw h', Store.unpermuteVector 0 4%positive 2%positive h = Some (Returned lw, h')
      ∧ (∀ l o, h !! l = Some o → h' !! l = Some o)
      ∧ h !! lw = None ∧ is_Some (h' !! lw) ∧ lw ≠ 4%positive ∧ lw ≠ 2%positive)
  ∧ (∃ r h', Store.updatePermutation 4%positive 3%positive h = Some (r, h')
      ∧ (∀ l o, h !! l = Some o → h' !! l = Some o)
      ∧ ∀ lq, r = Returned (Some lq) →
          h !! lq = None ∧ is_Some (h' !! lq) ∧ lq ≠ 4%positive ∧ lq ≠ 3%positive).
Proof.
  apply (no_input_mutation 0 (matrix_store [1; 2; 0] Plain [10; 20; 30] [0; 1; 2])
           4%positive 2%positive 3%positive
           (Layered {| permutation := [1; 2; 0] |}) Plain (vec [10; 20; 30]) [0; 1; 2]).
  - reflexivity.
  - reflexivity.
  - reflexivity.
Defined.

(** C3 (length validation), as the code has it. [updatePermutation]
    throws an error message when the length of [old] is not that of the
    permutation, before anything is allocated: the store is as it was.
    [permuteVector] and [unpermuteVector] do not compare lengths: they
    return an array whatever the lengths of the permutation and of the
    vector. *)
Theorem length_validation {T : Type} (nan : T)
    (h : gmap Store.loc (@Store.object T)) (lp lv lold : Store.loc)
    (layered : layered_arg) (k : kind) (values : list (option T)) (old : list Z) :
  resolve h lp = Some layered →
  h !! lv = Some (Store.ValArray k values) →
  h !! lold = Some (Store.IntArray old) →
  length old ≠ length (perm_of layered) →
  (∃ msg, Store.updatePermutation lp lold h = Some (Thrown msg, h)
        ∧ updatePermutation layered old = Thrown msg)
  ∧ (∃ lw h', Store.permuteVector nan lp lv h = Some (Returned lw, h'))
  ∧ (∃ lw h', Store.unpermuteVector nan lp lv h = Some (Returned lw, h')).
Proof.
  intros Hres Hlv Hlold Hne. split; [|split].
  - rewrite (updatePermutation_run h layered lp lold old Hres Hlold).
    unfold updatePermutation. destruct layered as [m|p]; simpl in Hne.
    + unfold numberOfRows. rewrite decide_True by done. by eexists.
    + rewrite decide_True by done. by eexists.
  - eexists _, _. by apply permuteVector_run.
  - eexists _, _. by apply unpermuteVector_run.
Qed.

Lemma length_validation_witness :
  let h := matrix_store [1; 0] Plain [10; 20; 30] [0] in
  (∃ msg, Store.updatePermutation 1%positive 3%positive h = Some (Thrown msg, h)
        ∧ updatePermutation (Perm [1; 0]) [0] = Thrown msg)
  ∧ (∃ lw h', Store.permuteVector 0 1%positive 2%positive h = Some (Returned lw, h'))
  ∧ (∃ lw h', Store.unpermuteVector 0 1%positive 2%positive h = Some (Returned lw, h')).
Proof.
  apply (length_validation 0 (matrix_store [1; 0] Plain [10; 20; 30] [0])
           1%positive 2%positive 3%positive (Perm [1; 0]) Plain (vec [10; 20; 30]) [0]).
  - reflexivity.
  - reflexivity.
  - reflexivity.
  - simpl. lia.
Defined.

(** [permuteVector([0], [10, 20])]: the lengths differ, and the call
    returns a new array [[10, 20]] instead of failing; so does
    [unpermuteVector([0], [10, 20])]. *)
Lemma length_validation_counterexample :
  length [0] ≠ length (vec [10; 20])
  ∧ permuteVector 0 Plain (Perm [0]) (vec [10; 20]) = vec [10; 20]
  ∧ unpermuteVector 0 Plain (Perm [0]) (vec [10; 20]) = vec [10; 20]
  ∧ (∃ h', Store.permuteVector 0 1%positive 2%positive (scenario_store [0] Plain [10; 20])
           = Some (Returned 3%positive, h')
         ∧ h' !! 3%positive = Some (Store.ValArray Plain (vec [10; 20])))
  ∧ (∃ h', Store.unpermuteVector 0 1%positive 2%positive (scenario_store [0] Plain [10; 20])
           = Some (Returned 3%positive, h')
         ∧ h' !! 3%positive = Some (Store.ValArray Plain (vec [10; 20])))
  ∧ ¬ (∃ msg h', Store.permuteVector 0 1%positive 2%positive
                   (scenario_store [0] Plain [10; 20]) = Some (Thrown msg, h'))
  ∧ ¬ (∃ msg h', Store.unpermuteVector 0 1%positive 2%positive
                   (scenario_store [0] Plain [10; 20]) = Some (Thrown msg, h')).
Proof.
  assert (Store.permuteVector 0 1%positive 2%positive (scenario_store [0] Plain [10; 20])
          = Some (Returned 3%positive,
                  <[3%positive := Store.ValArray Plain (vec [10; 20])]>
                    (scenario_store [0] Plain [10; 20]))) as Hp.
  { by rewrite (permuteVector_run 0 _ (Perm [0]) 1%positive 2%positive Plain (vec [10; 20])). }
  assert (Store.unpermuteVector 0 1%positive 2%positive (scenario_store [0] Plain [10; 20])
          = Some (Returned 3%positive,
                  <[3%positive := Store.ValArray Plain (vec [10; 20])]>
                    (scenario_store [0] Plain [10; 20]))) as Hu.
  { by rewrite (unpermuteVector_run 0 _ (Perm [0]) 1%positive 2%positive Plain (vec [10; 20])). }
  split; [simpl; lia|]. split; [reflexivity|]. split; [reflexivity|].
  split; [eexists; split; [exact Hp|by rewrite lookup_insert_eq]|].
  split; [eexists; split; [exact Hu|by rewrite lookup_insert_eq]|].
  split; intros (msg & h' & H); congruence.
Qed.

(** X5 (the reconciler with the backward mapper). The array [Q] that
    [updatePermutation(newP, oldP)] returns maps a position of the new
    row order to the position of the same row in the old order: it is
    with [unpermuteVector] that it takes a vector in the old order to the
    new one. *)
Lemma updatePermutation_unpermute {T : Type} (nan : T) (k : kind)
    (oldP newP Q : list Z) (R : list T) :
  bijection oldP → bijection newP →
  length oldP = length newP → length R = length newP →
  updatePermutation (Perm newP) oldP = Returned (Some Q) →
  unpermuteVector nan k (Perm Q) (vec R)
  = permuteVector nan k (Perm newP) (unpermuteVector nan k (Perm oldP) (vec R)).
Proof.
  intros Hold Hnew Hl HlR Hupd.
  rewrite (updatePermutation_returned newP oldP Q Hnew Hl Hupd).
  pose proof (update_scatter_bijection newP oldP Hold Hnew Hl) as HQ.
  set (Q' := scatter _ newP oldP) in *.
  assert (length Q' = length newP) as HlQ by (unfold Q'; by rewrite scatter_length).
  destruct (unpermuteVector_vec nan k Q' R) as (V & -> & HlV & HV); [|lia|].
  { rewrite HlR, <- HlQ. by apply bijection_in_range. }
  destruct (unpermuteVector_vec nan k oldP R) as (U & -> & HlU & HU); [|lia|].
  { rewrite HlR, <- Hl. by apply bijection_in_range. }
  destruct (permuteVector_bijection nan k newP U Hnew) as (X & -> & HlX & HX); [lia|].
  f_equal. apply list_eq_below; [lia|]. intros a Ha.
  destruct (bijection_once newP (Z.of_nat a) Hnew) as (i & Hi & _); [lia|].
  pose proof (update_scatter_lookup newP oldP i _ Hnew Hl Hi) as HQa.
  rewrite Nat2Z.id in HQa. fold Q' in HQa.
  destruct (lookup_lt_is_Some_2 oldP i) as [y Hy].
  { rewrite Hl. by apply lookup_lt_Some in Hi. }
  rewrite Hy in HQa.
  pose proof (HX i _ Hi) as H1. rewrite Nat2Z.id in H1.
  rewrite (HV a y HQa), H1. by rewrite (HU i y Hy).
Qed.

(** X6 (the no-op signal). When [updatePermutation] returns the no-op
    signal, a vector in the old order is already in the new one. *)
Lemma updatePermutation_noop_law {T : Type} (nan : T) (k : kind)
    (oldP newP : list Z) (R : list T) :
  bijection newP → length oldP = length newP → length R = length newP →
  updatePermutation (Perm newP) oldP = Returned None →
  permuteVector nan k (Perm newP) (unpermuteVector nan k (Perm oldP) (vec R)) = vec R.
Proof.
  intros Hnew Hl HlR Hupd.
  rewrite updatePermutation_checked in Hupd by done.
  destruct (same_loop oldP (entries newP)) eqn:Hsame; [|done].
  apply same_loop_eq in Hsame as ->; [|done].
  destruct (unpermuteVector_vec nan k newP R) as (V & -> & HlV & HV); [|lia|].
  { rewrite HlR. by apply bijection_in_range. }
  destruct (permuteVector_bijection nan k newP V Hnew) as (W & -> & HlW & HW); [lia|].
  f_equal. apply list_eq_below; [lia|]. intros j Hj.
  destruct (bijection_once newP (Z.of_nat j) Hnew) as (i & Hi & _); [lia|].
  pose proof (HW i _ Hi) as H1. pose proof (HV i _ Hi) as H2.
  rewrite Nat2Z.id in H1, H2. congruence.
Qed.

(** C1 (composition law), at [oldP = [0, 1, 2]], [newP = [1, 2, 0]] and
    [R = [10, 20, 30]]: [updatePermutation(newP, oldP)] returns
    [Q = [2, 0, 1]], [permuteVector(Q, R)] is [[20, 30, 10]], and
    [permuteVector(newP, unpermuteVector(oldP, R))] is [[30, 10, 20]]. *)
Theorem composition_law_at_cycle :
  bijection [0; 1; 2] ∧ bijection [1; 2; 0]
  ∧ updatePermutation (Perm [1; 2; 0]) [0; 1; 2] = Returned (Some [2; 0; 1])
  ∧ permuteVector 0 Plain (Perm [2; 0; 1]) (vec [10; 20; 30]) = vec [20; 30; 10]
  ∧ permuteVector 0 Plain (Perm [1; 2; 0])
      (unpermuteVector 0 Plain (Perm [0; 1; 2]) (vec [10; 20; 30]))
    = vec [30; 10; 20]
  ∧ permuteVector 0 Plain (Perm [2; 0; 1]) (vec [10; 20; 30])
    ≠ permuteVector 0 Plain (Perm [1; 2; 0])
        (unpermuteVector 0 Plain (Perm [0; 1; 2]) (vec [10; 20; 30])).
Proof.
  split; [compute_done|]. split; [compute_done|].
  split; [reflexivity|]. split; [reflexivity|]. split; [reflexivity|].
  discriminate.
Qed.

(** * Further properties of js/permute.js *)

(** ** The identity permutation *)

Lemma scatter_identity {A : Type} (d : A) (P : list Z) (V : list A) :
  (∀ i x, P !! i = Some x → x = Z.of_nat i) → (length P ≤ length V)%nat →
  scatter (λ i, default d (V !! i)) P V = V.
Proof.
  induction P as [|x P IH] using rev_ind; intros Hid Hl; [done|].
  rewrite length_app in Hl; simpl in Hl.
  rewrite scatter_snoc, IH; [|by intros i y Hi; apply Hid; rewrite lookup_app_l;
    [|apply lookup_lt_Some in Hi]|lia].
  rewrite (Hid (length P) x) by (by apply list_lookup_middle).
  rewrite Nat2Z.id. apply list_insert_id. symmetry. apply default_lookup. lia.
Qed.

Lemma identity_in_range (P : list Z) n :
  (∀ i x, P !! i = Some x → x = Z.of_nat i) → (length P ≤ n)%nat → in_range n P.
Proof.
  intros Hid Hl. apply Forall_lookup_2. intros i x Hi.
  rewrite (Hid i x Hi). apply lookup_lt_Some in Hi. lia.
Qed.

(** X1 (identity permutation). When [P[i] == i] at every index of [P], and
    [P] is no longer than the vector, [permuteVector(P, V)] and
    [unpermuteVector(P, V)] both return a copy of [V]. *)
Theorem identity_permutation_noop {T : Type} (nan : T) (k : kind)
    (P : list Z) (V : list T) :
  (∀ i x, P !! i = Some x → x = Z.of_nat i) → (length P ≤ length V)%nat →
  permuteVector nan k (Perm P) (vec V) = vec V
  ∧ unpermuteVector nan k (Perm P) (vec V) = vec V.
Proof.
  intros Hid Hl. pose proof (identity_in_range P (length V) Hid Hl) as HP. split.
  - destruct (permuteVector_vec nan k P V HP Hl) as (W & -> & _ & ->).
    by rewrite scatter_identity.
  - rewrite unpermuteVector_gather, gather_spec by (rewrite length_vec; lia).
    apply list_eq. intros i.
    destruct (decide (i < length P)%nat) as [Hi|Hi].
    + rewrite lookup_app_l by (by rewrite length_fmap).
      destruct (lookup_lt_is_Some_2 P i Hi) as [x Hx].
      rewrite list_lookup_fmap, Hx, (Hid i x Hx). simpl.
      rewrite array_get_vec. unfold vec. rewrite list_lookup_fmap.
      destruct (lookup_lt_is_Some_2 V i) as [v ->]; [lia|].
      simpl. by rewrite store_Some.
    + rewrite lookup_app_r by (rewrite length_fmap; lia).
      rewrite length_fmap, lookup_drop. f_equal. lia.
Qed.

Lemma identity_permutation_noop_witness :
  permuteVector 0 Typed (Perm [0; 1; 2]) (vec [10; 20; 30; 40]) = vec [10; 20; 30; 40]
  ∧ unpermuteVector 0 Typed (Perm [0; 1; 2]) (vec [10; 20; 30; 40]) = vec [10; 20; 30; 40].
Proof.
  apply (identity_permutation_noop 0 Typed [0; 1; 2] [10; 20; 30; 40]).
  - intros [|[|[|i]]] x Hi; simpl in Hi; by simplify_eq.
  - simpl. lia.
Defined.

(** ** Entries that are not positions of the vector *)

Lemma length_array_set {T : Type} (nan : T) k (a : list (option T)) x v :
  length (array_set nan k a x v)
  = match k with
    | Typed => length a
    | Plain => if decide (x < 0) then length a
               else (length a `max` (Z.to_nat x + 1))%nat
    end.
Proof.
  unfold array_set. destruct (decide (x < 0)); [by destruct k|].
  destruct (decide (x < Z.of_nat (length a))).
  - rewrite length_insert. destruct k; [lia|done].
  - destruct k; [|done]. rewrite !length_app, length_replicate. simpl. lia.
Qed.

(** X2 (lengths). On a typed array neither [permuteVector] nor
    [unpermuteVector] changes the length, whatever the permutation vector
    holds and however long it is. On an [Array] the result of
    [permuteVector] is never shorter than [values] and reaches past every
    non-negative entry of the permutation vector, and the result of
    [unpermuteVector] has the larger of the two lengths. *)
Theorem permute_lengths {T : Type} (nan : T) (layered : layered_arg)
    (values : list (option T)) :
  length (permuteVector nan Typed layered values) = length values
  ∧ length (unpermuteVector nan Typed layered values) = length values
  ∧ (length values ≤ length (permuteVector nan Plain layered values))%nat
  ∧ (∀ x, x ∈ perm_of layered → 0 ≤ x →
       x < Z.of_nat (length (permuteVector nan Plain layered values)))
  ∧ length (unpermuteVector nan Plain layered values)
    = (length values `max` length (perm_of layered))%nat.
Proof.
  assert (∀ k, permuteVector nan k layered values
    = forEach (perm_of layered)
        (λ x i copy, array_set nan k copy x (array_get values (Z.of_nat i))) values) as Hp.
  { intros k. by destruct layered. }
  assert (∀ k, unpermuteVector nan k layered values
    = forEach (perm_of layered)
        (λ x i copy, array_set nan k copy (Z.of_nat i) (array_get values x)) values) as Hu.
  { intros k. by destruct layered. }
  rewrite !Hp, !Hu. clear Hp Hu. generalize (perm_of layered). intros P.
  induction P as [|y P (IH1 & IH2 & IH3 & IH4 & IH5)] using rev_ind.
  { split; [done|]. split; [done|]. split; [done|].
    split; [|unfold forEach; simpl; lia].
    intros x Hx. by apply elem_of_nil in Hx. }
  rewrite !forEach_snoc, !length_array_set, IH1, IH2, IH5.
  split; [done|]. split; [done|]. split; [|split].
  - destruct (decide (y < 0)); lia.
  - intros x [Hx| ->%list_elem_of_singleton]%elem_of_app Hx0.
    + specialize (IH4 x Hx Hx0). destruct (decide (y < 0)); lia.
    + rewrite decide_False by lia. lia.
  - rewrite decide_False by lia. rewrite length_app. simpl. lia.
Qed.

(** X3 (backward mapper on any permutation vector). For a permutation
    vector no longer than [values], bijection or not,
    [unpermuteVector(P, values)] has the length of [values]; position [i]
    below the length of [P] receives [values[P[i]]]: an element of
    [values] when [P[i]] is one of its positions, and otherwise
    [undefined], which a typed array stores as its number for
    [undefined]; the positions from the length of [P] on keep their
    element. *)
Theorem unpermuteVector_any {T : Type} (nan : T) (k : kind)
    (P : list Z) (values : list (option T)) :
  (length P ≤ length values)%nat →
  length (unpermuteVector nan k (Perm P) values) = length values
  ∧ (∀ i x, P !! i = Some x →
       unpermuteVector nan k (Perm P) values !! i
       = Some (store nan k (array_get values x)))
  ∧ (∀ i x, P !! i = Some x → x < 0 ∨ Z.of_nat (length values) ≤ x →
       unpermuteVector nan k (Perm P) values !! i
       = Some (match k with Plain => None | Typed => Some nan end))
  ∧ (∀ i, (length P ≤ i)%nat →
       unpermuteVector nan k (Perm P) values !! i = values !! i).
Proof.
  intros Hl. rewrite unpermuteVector_gather, gather_spec by done.
  assert (∀ i x, P !! i = Some x →
    (((λ x, store nan k (array_get values x)) <$> P) ++ drop (length P) values) !! i
    = Some (store nan k (array_get values x))) as Hlk.
  { intros i x Hi. rewrite lookup_app_l by (rewrite length_fmap; by apply lookup_lt_Some in Hi).
    by rewrite list_lookup_fmap, Hi. }
  split; [|split; [done|split]].
  - rewrite length_app, length_fmap, length_drop. lia.
  - intros i x Hi Hx. rewrite (Hlk i x Hi). f_equal.
    assert (array_get values x = None) as ->; [|by destruct k].
    unfold array_get. destruct (decide (0 ≤ x)); [|done].
    rewrite lookup_ge_None_2; [done|lia].
  - intros i Hi. rewrite lookup_app_r by (by rewrite length_fmap).
    rewrite length_fmap, lookup_drop. f_equal. lia.
Qed.

Lemma unpermuteVector_any_witness :
  length (unpermuteVector 0 Typed (Perm [2; 2; 7]) (vec [10; 20; 30; 40]))
  = length (vec [10; 20; 30; 40])
  ∧ (∀ i x, [2; 2; 7] !! i = Some x →
       unpermuteVector 0 Typed (Perm [2; 2; 7]) (vec [10; 20; 30; 40]) !! i
       = Some (store 0 Typed (array_get (vec [10; 20; 30; 40]) x)))
  ∧ (∀ i x, [2; 2; 7] !! i = Some x →
       x < 0 ∨ Z.of_nat (length (vec [10; 20; 30; 40])) ≤ x →
       unpermuteVector 0 Typed (Perm [2; 2; 7]) (vec [10; 20; 30; 40]) !! i
       = Some (Some 0))
  ∧ (∀ i, (length [2; 2; 7] ≤ i)%nat →
       unpermuteVector 0 Typed (Perm [2; 2; 7]) (vec [10; 20; 30; 40]) !! i
       = vec [10; 20; 30; 40] !! i).
Proof.
  apply (unpermuteVector_any 0 Typed [2; 2; 7] (vec [10; 20; 30; 40])).
  simpl. lia.
Defined.

Lemma permute_lengths_witness :
  length (permuteVector 0 Typed (Perm [5; -1]) (vec [10; 20])) = length (vec [10; 20])
  ∧ length (unpermuteVector 0 Typed (Perm [5; -1]) (vec [10; 20])) = length (vec [10; 20])
  ∧ Nat.le (length (vec [10; 20])) (length (permuteVector 0 Plain (Perm [5; -1]) (vec [10; 20])))
  ∧ 5 < Z.of_nat (length (permuteVector 0 Plain (Perm [5; -1]) (vec [10; 20])))
  ∧ length (unpermuteVector 0 Plain (Perm [5; -1]) (vec [10; 20]))
    = Nat.max (length (vec [10; 20])) (length [5; -1]).
Proof.
  destruct (permute_lengths 0 (Perm [5; -1]) (vec [10; 20])) as (H1 & H2 & H3 & H4 & H5).
  split; [exact H1|]. split; [exact H2|]. split; [exact H3|]. split; [|exact H5].
  apply H4; [|lia]. simpl. apply list_elem_of_here.
Defined.

(** ** The mappers rearrange *)

(** The index map of a Permutation, extended by the identity past its
    length, is injective. *)
Lemma bijection_index_inj (P : list Z) :
  bijection P →
  Inj (=) (=) (λ i : nat, match P !! i with Some x => Z.to_nat x | None => i end).
Proof.
  intros HP i j Hij. pose proof (bijection_in_range P HP) as Hr.
  destruct (P !! i) as [x|] eqn:Hi, (P !! j) as [y|] eqn:Hj.
  - pose proof (in_range_lookup _ _ _ _ Hr Hi). pose proof (in_range_lookup _ _ _ _ Hr Hj).
    assert (x = y) as -> by lia.
    by apply (NoDup_lookup P i j y (bijection_NoDup _ HP)).
  - pose proof (in_range_lookup _ _ _ _ Hr Hi). apply lookup_ge_None_1 in Hj. lia.
  - pose proof (in_range_lookup _ _ _ _ Hr Hj). apply lookup_ge_None_1 in Hi. lia.
  - done.
Qed.

(** X4 (rearrangement). For a Permutation [P] and a vector of its length,
    the results of [permuteVector] and of [unpermuteVector] hold the
    elements of the vector, each as many times as the vector does: nothing
    is lost and nothing is duplicated. *)
Theorem permute_rearranges {T : Type} (nan : T) (k : kind) (P : list Z) (V : list T) :
  bijection P → length V = length P →
  permuteVector nan k (Perm P) (vec V) ≡ₚ vec V
  ∧ unpermuteVector nan k (Perm P) (vec V) ≡ₚ vec V.
Proof.
  intros HP Hl. pose proof (bijection_index_inj P HP) as Hinj. split.
  - destruct (permuteVector_bijection nan k P V HP Hl) as (W & -> & HlW & HW).
    unfold vec. apply fmap_Permutation. symmetry. apply Permutation_inj.
    split; [lia|]. eexists. split; [exact Hinj|]. intros i. simpl.
    destruct (P !! i) as [x|] eqn:Hi; [by rewrite (HW i x Hi)|].
    apply lookup_ge_None_1 in Hi. rewrite !lookup_ge_None_2; [done|lia..].
  - destruct (unpermuteVector_vec nan k P V) as (W & -> & HlW & HW); [|done|].
    { rewrite Hl. by apply bijection_in_range. }
    unfold vec. apply fmap_Permutation. apply Permutation_inj.
    split; [lia|]. eexists. split; [exact Hinj|]. intros i. simpl.
    destruct (P !! i) as [x|] eqn:Hi; [by rewrite (HW i x Hi)|].
    apply lookup_ge_None_1 in Hi. rewrite !lookup_ge_None_2; [done|lia..].
Qed.

Lemma permute_rearranges_witness :
  permuteVector 0 Plain (Perm [2; 0; 3; 1]) (vec [10; 20; 30; 40]) ≡ₚ vec [10; 20; 30; 40]
  ∧ unpermuteVector 0 Plain (Perm [2; 0; 3; 1]) (vec [10; 20; 30; 40])
    ≡ₚ vec [10; 20; 30; 40].
Proof.
  apply (permute_rearranges 0 Plain [2; 0; 3; 1] [10; 20; 30; 40]).
  - compute_done.
  - reflexivity.
Defined.

(** ** More on [updatePermutation] *)

Lemma updatePermutation_unpermute_witness :
  unpermuteVector 0 Plain (Perm [2; 0; 1]) (vec [10; 20; 30])
  = permuteVector 0 Plain (Perm [1; 2; 0])
      (unpermuteVector 0 Plain (Perm [0; 1; 2]) (vec [10; 20; 30])).
Proof.
  apply (updatePermutation_unpermute 0 Plain [0; 1; 2] [1; 2; 0] [2; 0; 1] [10; 20; 30]).
  - compute_done.
  - compute_done.
  - reflexivity.
  - reflexivity.
  - reflexivity.
Defined.

Lemma updatePermutation_noop_law_witness :
  permuteVector 0 Plain (Perm [1; 2; 0])
    (unpermuteVector 0 Plain (Perm [1; 2; 0]) (vec [10; 20; 30]))
  = vec [10; 20; 30].
Proof.
  apply (updatePermutation_noop_law 0 Plain [1; 2; 0] [1; 2; 0] [10; 20; 30]).
  - compute_done.
  - reflexivity.
  - reflexivity.
  - reflexivity.
Defined.

(** X7 (the two directions are inverse). For Permutations [oldP] and
    [newP] of one length, the arrays [Q = updatePermutation(newP, oldP)]
    and [Q' = updatePermutation(oldP, newP)] are inverse permutations:
    [Q'[Q[j]] = j] at every position [j]. *)
Theorem updatePermutation_inverse (oldP newP Q Q' : list Z) :
  bijection oldP → bijection newP → length oldP = length newP →
  updatePermutation (Perm newP) oldP = Returned (Some Q) →
  updatePermutation (Perm oldP) newP = Returned (Some Q') →
  length Q = length Q'
  ∧ ∀ (j : nat) a, Q !! j = Some a → Q' !! Z.to_nat a = Some (Z.of_nat j).
Proof.
  intros Hold Hnew Hl HQ HQ'.
  rewrite (updatePermutation_returned newP oldP Q Hnew Hl HQ).
  rewrite (updatePermutation_returned oldP newP Q' Hold (eq_sym Hl) HQ').
  split; [by rewrite !scatter_length|].
  intros j a Hj. pose proof (lookup_lt_Some _ _ _ Hj) as Hlt.
  rewrite scatter_length in Hlt.
  destruct (bijection_once newP (Z.of_nat j) Hnew) as (i & Hi & _); [lia|].
  pose proof (update_scatter_lookup newP oldP i _ Hnew Hl Hi) as H1.
  rewrite Nat2Z.id, Hj in H1.
  by rewrite (update_scatter_lookup oldP newP i a Hold (eq_sym Hl) (eq_sym H1)).
Qed.

Lemma updatePermutation_inverse_witness :
  length [2; 0; 1] = length [1; 2; 0]
  ∧ ∀ (j : nat) a, [2; 0; 1] !! j = Some a → [1; 2; 0] !! Z.to_nat a = Some (Z.of_nat j).
Proof.
  apply (updatePermutation_inverse [0; 1; 2] [1; 2; 0] [2; 0; 1] [1; 2; 0]).
  - compute_done.
  - compute_done.
  - reflexivity.
  - reflexivity.
  - reflexivity.
Defined.

Lemma bijection_identity (n : nat) : bijection (seqZ 0 (Z.of_nat n)).
Proof.
  split; [apply NoDup_seqZ|]. apply Forall_forall. intros x Hx.
  apply elem_of_seqZ in Hx. rewrite length_seqZ. lia.
Qed.

(** X8 (inverse of a Permutation). For a Permutation [P], an array [Q]
    that [updatePermutation(P, identity)] returns is the inverse of [P]:
    [Q[P[i]] = i], and mapping forward with [Q] is mapping backward with
    [P], and the other way round. *)
Theorem updatePermutation_from_identity {T : Type} (nan : T) (k : kind)
    (P Q : list Z) (V : list T) :
  bijection P → length V = length P →
  updatePermutation (Perm P) (seqZ 0 (Z.of_nat (length P))) = Returned (Some Q) →
  (∀ i x, P !! i = Some x → Q !! Z.to_nat x = Some (Z.of_nat i))
  ∧ permuteVector nan k (Perm Q) (vec V) = unpermuteVector nan k (Perm P) (vec V)
  ∧ unpermuteVector nan k (Perm Q) (vec V) = permuteVector nan k (Perm P) (vec V).
Proof.
  intros HP HlV HQ. set (I := seqZ 0 (Z.of_nat (length P))) in *.
  assert (length I = length P) as HlI by (unfold I; rewrite length_seqZ; lia).
  assert (bijection I) as HI by apply bijection_identity.
  rewrite (updatePermutation_returned P I Q HP HlI HQ).
  pose proof (update_scatter_bijection P I HI HP HlI) as HbQ.
  set (Q' := scatter _ P I) in *.
  assert (length Q' = length P) as HlQ by (unfold Q'; by rewrite scatter_length).
  assert (∀ i x, P !! i = Some x → Q' !! Z.to_nat x = Some (Z.of_nat i)) as Hinv.
  { intros i x Hi. unfold Q'. rewrite (update_scatter_lookup P I i x HP HlI Hi).
    unfold I. apply lookup_seqZ. apply lookup_lt_Some in Hi. lia. }
  split; [done|].
  destruct (unpermuteVector_vec nan k P V) as (U & -> & HlU & HU); [|done|].
  { rewrite HlV. by apply bijection_in_range. }
  destruct (permuteVector_bijection nan k P V HP HlV) as (W & -> & HlW & HW).
  split.
  - destruct (permuteVector_bijection nan k Q' V HbQ) as (X & -> & HlX & HX); [lia|].
    f_equal. apply list_eq_below; [lia|]. intros i Hi.
    destruct (lookup_lt_is_Some_2 P i) as [x Hx]; [lia|].
    pose proof (HX _ _ (Hinv i x Hx)) as H1. rewrite Nat2Z.id in H1.
    by rewrite H1, (HU i x Hx).
  - destruct (unpermuteVector_vec nan k Q' V) as (Y & -> & HlY & HY); [|lia|].
    { rewrite HlV, <- HlQ. by apply bijection_in_range. }
    f_equal. apply list_eq_below; [lia|]. intros a Ha.
    destruct (bijection_once P (Z.of_nat a) HP) as (i & Hi & _); [lia|].
    pose proof (Hinv i _ Hi) as H1. rewrite Nat2Z.id in H1.
    pose proof (HW i _ Hi) as H2. rewrite Nat2Z.id in H2.
    by rewrite (HY a _ H1), Nat2Z.id, H2.
Qed.

Lemma updatePermutation_from_identity_witness :
  (∀ i x, [1; 2; 0] !! i = Some x → [2; 0; 1] !! Z.to_nat x = Some (Z.of_nat i))
  ∧ permuteVector 0 Plain (Perm [2; 0; 1]) (vec [10; 20; 30])
    = unpermuteVector 0 Plain (Perm [1; 2; 0]) (vec [10; 20; 30])
  ∧ unpermuteVector 0 Plain (Perm [2; 0; 1]) (vec [10; 20; 30])
    = permuteVector 0 Plain (Perm [1; 2; 0]) (vec [10; 20; 30]).
Proof.
  apply (updatePermutation_from_identity 0 Plain [1; 2; 0] [2; 0; 1] [10; 20; 30]).
  - compute_done.
  - reflexivity.
  - reflexivity.
Defined.

Lemma update_loop_entries (P old : list Z) :
  (length P ≤ length old)%nat →
  let Q := forEach P (λ x i output, int_set output x (int_get old (Z.of_nat i))) old in
  length Q = length old ∧ ∀ q, q ∈ Q → q ∈ old.
Proof.
  induction P as [|x P IH] using rev_ind; intros Hl; [done|].
  rewrite length_app in Hl; simpl in Hl.
  destruct IH as [IH1 IH2]; [lia|]. simpl.
  rewrite forEach_snoc. unfold int_set.
  destruct (decide _) as [Hx|]; [|done].
  rewrite length_insert. split; [done|].
  intros q [j Hj]%list_elem_of_lookup.
  destruct (decide (j = Z.to_nat x)) as [->|Hne].
  - rewrite list_lookup_insert_eq in Hj by lia. simplify_eq.
    rewrite int_get_nat.
    destruct (lookup_lt_is_Some_2 old (length P)) as [y Hy]; [lia|].
    rewrite Hy. simpl. apply list_elem_of_lookup. eauto.
  - rewrite list_lookup_insert_ne in Hj by done.
    apply IH2, list_elem_of_lookup. eauto.
Qed.

(** X9 (what a returned array holds). Whatever [layered] holds, bijection
    or not, in range or not, an array that [updatePermutation(layered,
    old)] returns has the length of [old], and each of its entries is an
    entry of [old]: no value is made up, and a write outside the array
    is dropped. *)
Theorem updatePermutation_entries (layered : layered_arg) (old Q : list Z) :
  updatePermutation layered old = Returned (Some Q) →
  length Q = length old ∧ ∀ q, q ∈ Q → q ∈ old.
Proof.
  intros HQ.
  assert (length old = length (perm_of layered)
          ∧ Q = forEach (perm_of layered)
                  (λ x i output, int_set output x (int_get old (Z.of_nat i))) old)
    as [Hl ->].
  { unfold updatePermutation in HQ. destruct layered as [m|p]; simpl.
    - unfold numberOfRows in HQ.
      destruct (decide (length old ≠ length (permutation m))) as [|Hl%dec_stable]; [done|].
      destruct (same_loop old (entries (permutation m))); [done|]. by simplify_eq.
    - destruct (decide (length old ≠ length p)) as [|Hl%dec_stable]; [done|].
      destruct (same_loop old (entries p)); [done|]. by simplify_eq. }
  apply update_loop_entries. lia.
Qed.

Lemma updatePermutation_entries_witness :
  length [5; 7; 7] = length [5; 6; 7] ∧ ∀ q, q ∈ [5; 7; 7] → q ∈ [5; 6; 7].
Proof.
  apply (updatePermutation_entries (Perm [1; 9; 1]) [5; 6; 7] [5; 7; 7]).
  reflexivity.
Defined.

(** ** Composition *)

(** X10 (composition). For Permutations [P1] and [P2] of one length, let
    [C] be the array [unpermuteVector(P1, P2)], that is [C[i] =
    P2[P1[i]]]. Mapping a vector forward with [P1] and then with [P2] is
    mapping it forward with [C], and mapping it backward with [P2] and
    then with [P1] is mapping it backward with [C]. *)
Theorem permute_compose {T : Type} (nan : T) (k : kind)
    (P1 P2 C : list Z) (V : list T) :
  bijection P1 → bijection P2 → length P1 = length P2 → length V = length P1 →
  unpermuteVector 0 Typed (Perm P1) (vec P2) = vec C →
  bijection C
  ∧ permuteVector nan k (Perm P2) (permuteVector nan k (Perm P1) (vec V))
    = permuteVector nan k (Perm C) (vec V)
  ∧ unpermuteVector nan k (Perm P1) (unpermuteVector nan k (Perm P2) (vec V))
    = unpermuteVector nan k (Perm C) (vec V).
Proof.
  intros H1 H2 Hl HlV HC.
  assert (in_range (length P2) P1) as Hr1 by (rewrite <- Hl; by apply bijection_in_range).
  assert (length C = length P1 ∧ ∀ i x, P1 !! i = Some x → C !! i = P2 !! Z.to_nat x)
    as [HlC HCi].
  { destruct (unpermuteVector_vec 0 Typed P1 P2 Hr1 Hl) as (C' & HC' & HlC' & HCi).
    rewrite HC in HC'. apply (inj (fmap Some)) in HC' as ->. split; [lia|done]. }
  assert (∀ i, (i < length P1)%nat →
            ∃ x y, P1 !! i = Some x ∧ P2 !! Z.to_nat x = Some y ∧ C !! i = Some y) as Hc.
  { intros i Hi. destruct (lookup_lt_is_Some_2 P1 i Hi) as [x Hx].
    pose proof (in_range_lookup _ _ _ _ Hr1 Hx) as Hxr.
    destruct (lookup_lt_is_Some_2 P2 (Z.to_nat x)) as [y Hy]; [lia|].
    exists x, y. split; [done|]. split; [done|]. by rewrite (HCi i x Hx). }
  assert (bijection C) as HbC.
  { split.
    - apply NoDup_alt. intros a b y Ha Hb.
      destruct (Hc a) as (xa & ya & Hxa & Hya & Hca); [apply lookup_lt_Some in Ha; lia|].
      destruct (Hc b) as (xb & yb & Hxb & Hyb & Hcb); [apply lookup_lt_Some in Hb; lia|].
      simplify_eq.
      pose proof (NoDup_lookup _ _ _ _ (bijection_NoDup _ H2) Hya Hyb) as Hx.
      pose proof (in_range_lookup _ _ _ _ Hr1 Hxa).
      pose proof (in_range_lookup _ _ _ _ Hr1 Hxb).
      assert (xa = xb) as -> by lia.
      by apply (NoDup_lookup _ _ _ _ (bijection_NoDup _ H1) Hxa Hxb).
    - apply Forall_lookup_2. intros i y Hi.
      destruct (Hc i) as (x & y' & Hx & Hy & Hci); [apply lookup_lt_Some in Hi; lia|].
      simplify_eq. rewrite HlC, Hl.
      by apply (in_range_lookup _ P2 (Z.to_nat x) y (bijection_in_range _ H2)). }
  split; [done|]. split.
  - destruct (permuteVector_bijection nan k P1 V H1 HlV) as (W1 & -> & HlW1 & HW1).
    destruct (permuteVector_bijection nan k P2 W1 H2) as (W2 & -> & HlW2 & HW2); [lia|].
    destruct (permuteVector_bijection nan k C V HbC) as (X & -> & HlX & HX); [lia|].
    f_equal. apply list_eq_below; [lia|]. intros a Ha.
    destruct (bijection_once C (Z.of_nat a) HbC) as (i & Hi & _); [lia|].
    destruct (Hc i) as (x & y & Hx & Hy & Hci); [apply lookup_lt_Some in Hi; lia|].
    simplify_eq.
    pose proof (HX i _ Hi) as E1. pose proof (HW2 _ _ Hy) as E2.
    pose proof (HW1 _ _ Hx) as E3. rewrite Nat2Z.id in E1, E2. congruence.
  - destruct (unpermuteVector_vec nan k P2 V) as (U2 & -> & HlU2 & HU2); [|lia|].
    { rewrite HlV, Hl. by apply bijection_in_range. }
    destruct (unpermuteVector_vec nan k P1 U2) as (U1 & -> & HlU1 & HU1); [|lia|].
    { rewrite HlU2, HlV. by apply bijection_in_range. }
    destruct (unpermuteVector_vec nan k C V) as (Y & -> & HlY & HY); [|lia|].
    { rewrite HlV, <- HlC. by apply bijection_in_range. }
    f_equal. apply list_eq_below; [lia|]. intros i Hi.
    destruct (Hc i) as (x & y & Hx & Hy & Hci); [lia|].
    by rewrite (HU1 i x Hx), (HU2 _ y Hy), (HY i y Hci).
Qed.

Lemma permute_compose_witness :
  bijection [2; 1; 3; 0]
  ∧ permuteVector 0 Plain (Perm [1; 0; 2; 3])
      (permuteVector 0 Plain (Perm [2; 0; 3; 1]) (vec [10; 20; 30; 40]))
    = permuteVector 0 Plain (Perm [2; 1; 3; 0]) (vec [10; 20; 30; 40])
  ∧ unpermuteVector 0 Plain (Perm [2; 0; 3; 1])
      (unpermuteVector 0 Plain (Perm [1; 0; 2; 3]) (vec [10; 20; 30; 40]))
    = unpermuteVector 0 Plain (Perm [2; 1; 3; 0]) (vec [10; 20; 30; 40]).
Proof.
  apply (permute_compose 0 Plain [2; 0; 3; 1] [1; 0; 2; 3] [2; 1; 3; 0] [10; 20; 30; 40]).
  - compute_done.
  - compute_done.
  - reflexivity.
  - reflexivity.
  - reflexivity.
Defined.

(** ** On the store: a matrix for its vector, and calls in sequence *)

(** X11 (a matrix or its permutation vector). Passing a layered matrix as
    [layered] gives what passing its permutation vector gives: the same
    new array from [permuteVector] and from [unpermuteVector], and the
    same result from [updatePermutation] when [old] has the matrix's
    number of rows. When it has not, both calls throw and leave the store
    as it was, each with a message of its own. *)
Theorem matrix_or_vector {T : Type} (nan : T)
    (h : gmap Store.loc (@Store.object T)) (lm lrows lv lold : Store.loc)
    (P : list Z) (k : kind) (values : list (option T)) (old : list Z) :
  h !! lm = Some (Store.Matrix lrows) →
  h !! lrows = Some (Store.IntArray P) →
  h !! lv = Some (Store.ValArray k values) →
  h !! lold = Some (Store.IntArray old) →
  Store.permuteVector nan lm lv h = Store.permuteVector nan lrows lv h
  ∧ Store.unpermuteVector nan lm lv h = Store.unpermuteVector nan lrows lv h
  ∧ if decide (length old = length P)
    then Store.updatePermutation lm lold h = Store.updatePermutation lrows lold h
    else Store.updatePermutation lm lold h
         = Some (Thrown "number of rows in 'layered' should be the same as length of 'old'", h)
         ∧ Store.updatePermutation lrows lold h
           = Some (Thrown "length of 'layered' should be the same as length of 'old'", h).
Proof.
  intros Hlm Hlrows Hlv Hlold.
  assert (resolve h lm = Some (Layered {| permutation := P |})) as Hm.
  { unfold resolve. by rewrite Hlm, Hlrows. }
  assert (resolve h lrows = Some (Perm P)) as Hr.
  { unfold resolve. by rewrite Hlrows. }
  rewrite (permuteVector_run nan h _ lm lv k values Hm Hlv).
  rewrite (permuteVector_run nan h _ lrows lv k values Hr Hlv).
  rewrite (unpermuteVector_run nan h _ lm lv k values Hm Hlv).
  rewrite (unpermuteVector_run nan h _ lrows lv k values Hr Hlv).
  rewrite (updatePermutation_run h _ lm lold old Hm Hlold).
  rewrite (updatePermutation_run h _ lrows lold old Hr Hlold).
  split; [done|]. split; [done|].
  unfold updatePermutation, numberOfRows. simpl.
  destruct (decide (length old = length P)) as [He|Hne].
  - by rewrite !decide_False by (by intros ?).
  - by rewrite !decide_True by done.
Qed.

Lemma matrix_or_vector_witness :
  let h := matrix_store [1; 2; 0] Plain [10; 20; 30] [0; 1; 2] in
  Store.permuteVector 0 4%positive 2%positive h = Store.permuteVector 0 1%positive 2%positive h
  ∧ Store.unpermuteVector 0 4%positive 2%positive h
    = Store.unpermuteVector 0 1%positive 2%positive h
  ∧ Store.updatePermutation 4%positive 3%positive h
    = Store.updatePermutation 1%positive 3%positive h.
Proof.
  apply (matrix_or_vector 0 (matrix_store [1; 2; 0] Plain [10; 20; 30] [0; 1; 2])
           4%positive 1%positive 2%positive 3%positive
           [1; 2; 0] Plain (vec [10; 20; 30]) [0; 1; 2]).
  - reflexivity.
  - reflexivity.
  - reflexivity.
  - reflexivity.
Defined.

(** X12 (round trip on the store). For a Permutation [P] and a vector [V]
    of its length, [permuteVector(P, V)] followed by [unpermuteVector] of
    [P] and the array just returned ends with three distinct arrays: [V]
    and [P] as they were, the permuted vector, and a copy of [V]. *)
Theorem store_round_trip {T : Type} (nan : T) (k : kind)
    (h : gmap Store.loc (@Store.object T)) (lp lv : Store.loc)
    (P : list Z) (V : list T) :
  bijection P → length V = length P →
  h !! lp = Some (Store.IntArray P) →
  h !! lv = Some (Store.ValArray k (vec V)) →
  ∃ l1 l2 h1 h2,
    Store.permuteVector nan lp lv h = Some (Returned l1, h1)
    ∧ Store.unpermuteVector nan lp l1 h1 = Some (Returned l2, h2)
    ∧ h2 !! l2 = Some (Store.ValArray k (vec V))
    ∧ h2 !! l1 = Some (Store.ValArray k (permuteVector nan k (Perm P) (vec V)))
    ∧ h2 !! lv = Some (Store.ValArray k (vec V))
    ∧ h2 !! lp = Some (Store.IntArray P)
    ∧ l1 ≠ l2 ∧ l1 ≠ lv ∧ l2 ≠ lv.
Proof.
  intros HP Hl Hlp Hlv.
  assert (resolve h lp = Some (Perm P)) as Hres by (unfold resolve; by rewrite Hlp).
  set (l1 := fresh (dom h)).
  set (h1 := <[l1 := Store.ValArray k (permuteVector nan k (Perm P) (vec V))]> h).
  assert (l1 ≠ lp) as Hne1 by (symmetry; by eapply fresh_ne).
  assert (l1 ≠ lv) as Hne2 by (symmetry; by eapply fresh_ne).
  assert (h1 !! lp = Some (Store.IntArray P)) as Hlp1.
  { unfold h1. by rewrite lookup_insert_ne. }
  assert (resolve h1 lp = Some (Perm P)) as Hres1 by (unfold resolve; by rewrite Hlp1).
  assert (h1 !! l1 = Some (Store.ValArray k (permuteVector nan k (Perm P) (vec V)))) as Hl1.
  { unfold h1. by rewrite lookup_insert_eq. }
  set (l2 := fresh (dom h1)).
  assert (l2 ≠ l1) as Hne3 by (symmetry; by eapply fresh_ne).
  assert (l2 ≠ lp) as Hne4 by (symmetry; by eapply fresh_ne).
  assert (l2 ≠ lv) as Hne5.
  { symmetry. eapply (fresh_ne h1). unfold h1. by rewrite lookup_insert_ne. }
  assert (unpermuteVector nan k (Perm P) (permuteVector nan k (Perm P) (vec V)) = vec V)
    as Hrt.
  { destruct (permuteVector_bijection nan k P V HP Hl) as (W & -> & HlW & HW).
    destruct (unpermuteVector_vec nan k P W) as (V' & -> & HlV' & HV'); [|done|].
    { rewrite HlW. by apply bijection_in_range. }
    f_equal. apply list_eq_below; [lia|]. intros i Hi.
    destruct (lookup_lt_is_Some_2 P i) as [x Hx]; [lia|].
    by rewrite (HV' i x Hx), (HW i x Hx). }
  exists l1, l2, h1, (<[l2 := Store.ValArray k (vec V)]> h1).
  split; [by apply permuteVector_run|].
  split; [by rewrite (unpermuteVector_run nan h1 _ lp l1 k _ Hres1 Hl1), Hrt|].
  split; [by rewrite lookup_insert_eq|].
  split; [by rewrite lookup_insert_ne|].
  split; [unfold h1; by rewrite !lookup_insert_ne|].
  split; [by rewrite lookup_insert_ne|].
  done.
Qed.

Lemma store_round_trip_witness :
  let h := scenario_store [2; 0; 3; 1] Plain [10; 20; 30; 40] in
  ∃ l1 l2 h1 h2,
    Store.permuteVector 0 1%positive 2%positive h = Some (Returned l1, h1)
    ∧ Store.unpermuteVector 0 1%positive l1 h1 = Some (Returned l2, h2)
    ∧ h2 !! l2 = Some (Store.ValArray Plain (vec [10; 20; 30; 40]))
    ∧ h2 !! l1 = Some (Store.ValArray Plain
                         (permuteVector 0 Plain (Perm [2; 0; 3; 1]) (vec [10; 20; 30; 40])))
    ∧ h2 !! 2%positive = Some (Store.ValArray Plain (vec [10; 20; 30; 40]))
    ∧ h2 !! 1%positive = Some (Store.IntArray [2; 0; 3; 1])
    ∧ l1 ≠ l2 ∧ l1 ≠ 2%positive ∧ l2 ≠ 2%positive.
Proof.
  apply (store_round_trip 0 Plain (scenario_store [2; 0; 3; 1] Plain [10; 20; 30; 40])
           1%positive 2%positive [2; 0; 3; 1] [10; 20; 30; 40]).
  - compute_done.
  - reflexivity.
  - reflexivity.
  - reflexivity.
Defined.

(** * Properties of src/cbind.cpp *)

Section bind_facts.
Context {Matrix : Type}.
Variables nrow ncol : Matrix → nat.
Variable make_DelayedBind : nat → list Matrix → Matrix.

Lemma cbind_loop_spec NR rest collected :
  cbind_loop nrow NR rest collected
  = if decide (Forall (λ m, nrow m = NR) rest) then Value (collected ++ rest)
    else Throws (string_literal "all matrices to cbind should have the same number of rows").
Proof.
  revert collected. induction rest as [|current rest IH]; intros collected;
    cbn [cbind_loop].
  { rewrite decide_True by done. by rewrite app_nil_r. }
  destruct (decide (nrow current ≠ NR)) as [Hne|He%dec_stable].
  - rewrite decide_False; [done|]. by intros [? _]%Forall_cons.
  - rewrite IH, <- app_assoc. cbn [app].
    destruct (decide (Forall (λ m, nrow m = NR) rest)) as [Hr|Hr].
    + by rewrite decide_True by (by apply Forall_cons).
    + rewrite decide_False; [done|]. by intros [_ ?]%Forall_cons.
Qed.

Lemma rbind_loop_spec NC rest collected :
  rbind_loop ncol NC rest collected
  = if decide (Forall (λ m, ncol m = NC) rest) then Value (collected ++ rest)
    else Throws (string_literal "all matrices to rbind should have the same number of columns").
Proof.
  revert collected. induction rest as [|current rest IH]; intros collected;
    cbn [rbind_loop].
  { rewrite decide_True by done. by rewrite app_nil_r. }
  destruct (decide (ncol current ≠ NC)) as [Hne|He%dec_stable].
  - rewrite decide_False; [done|]. by intros [? _]%Forall_cons.
  - rewrite IH, <- app_assoc. cbn [app].
    destruct (decide (Forall (λ m, ncol m = NC) rest)) as [Hr|Hr].
    + by rewrite decide_True by (by apply Forall_cons).
    + rewrite decide_False; [done|]. by intros [_ ?]%Forall_cons.
Qed.

(** X13 ([cbind]). [cbind] returns a matrix exactly when it is given at
    least one matrix and every further matrix has the number of rows of
    the first; the matrix is then the column-wise bind of all the
    matrices, in the order given, a single matrix being bound alone.
    With no matrix it throws a [std::runtime_error]; on a differing
    number of rows it throws a string literal. *)
Theorem cbind_spec (mat_ptrs : list Matrix) :
  cbind nrow make_DelayedBind mat_ptrs
  = match mat_ptrs with
    | [] => Throws (runtime_error "need at least one matrix to cbind")
    | first :: others =>
        if decide (Forall (λ m, nrow m = nrow first) others)
        then Value (make_DelayedBind 1 mat_ptrs)
        else Throws (string_literal
                       "all matrices to cbind should have the same number of rows")
    end.
Proof.
  destruct mat_ptrs as [|first others]; [done|].
  unfold cbind. rewrite cbind_loop_spec.
  by destruct (decide (Forall (λ m, nrow m = nrow first) others)).
Qed.

(** X14 ([rbind]). [rbind] returns a matrix exactly when it is given at
    least one matrix and every further matrix has the number of columns
    of the first; the matrix is then the row-wise bind of all the
    matrices, in the order given. With no matrix it throws a
    [std::runtime_error] whose message names [cbind]; on a differing
    number of columns it throws a string literal. *)
Theorem rbind_spec (mat_ptrs : list Matrix) :
  rbind ncol make_DelayedBind mat_ptrs
  = match mat_ptrs with
    | [] => Throws (runtime_error "need at least one matrix to cbind")
    | first :: others =>
        if decide (Forall (λ m, ncol m = ncol first) others)
        then Value (make_DelayedBind 0 mat_ptrs)
        else Throws (string_literal
                       "all matrices to rbind should have the same number of columns")
    end.
Proof.
  destruct mat_ptrs as [|first others]; [done|].
  unfold rbind. rewrite rbind_loop_spec.
  by destruct (decide (Forall (λ m, ncol m = ncol first) others)).
Qed.
End bind_facts.

(** * Properties of src/score_markers.cpp *)

Section score_markers_facts.
Context {D : Type}.
Variable average_vectors : nat → list (list D) → list D.
Implicit Types (s : @ScoreMarkers.Results D) (cm cd : list (list D)).

(** The averages the constructor computes: for each group, of its means
    and of its detected proportions over the blocks, both over as many
    genes as the first block of the means has. *)
Definition block_averages s : list (list D) * list (list D) :=
  ((λ cm, average_vectors (length (default [] (head cm))) cm) <$> ScoreMarkers.means s,
   zip_with (λ cm cd, average_vectors (length (default [] (head cm))) cd)
     (ScoreMarkers.means s) (ScoreMarkers.detected s)).

Lemma block_loop_spec cm cd n i mptrs dptrs :
  (i + n ≤ length cm)%nat → (length cm ≤ length cd)%nat →
  ScoreMarkers.block_loop cm cd (seq i n) mptrs dptrs
  = Some (mptrs ++ take n (drop i cm), dptrs ++ take n (drop i cd)).
Proof.
  revert i mptrs dptrs. induction n as [|n IH]; intros i mptrs dptrs Hi Hl; simpl.
  { by rewrite !app_nil_r. }
  destruct (lookup_lt_is_Some_2 cm i) as [m Hm]; [lia|].
  destruct (lookup_lt_is_Some_2 cd i) as [d Hd]; [lia|].
  rewrite Hm, Hd, IH by lia.
  rewrite (drop_S _ _ _ Hm), (drop_S _ _ _ Hd). simpl.
  by rewrite <- !app_assoc.
Qed.

Lemma group_loop_spec s n i am ad :
  Forall2 (λ cm cd, cm ≠ [] ∧ length cm = length cd)
    (ScoreMarkers.means s) (ScoreMarkers.detected s) →
  (i + n ≤ length (ScoreMarkers.means s))%nat →
  ScoreMarkers.group_loop average_vectors s (seq i n) am ad
  = Some (am ++ take n (drop i (block_averages s).1),
          ad ++ take n (drop i (block_averages s).2)).
Proof.
  intros Hshape. pose proof (Forall2_length _ _ _ Hshape) as HlG.
  revert i am ad. induction n as [|n IH]; intros i am ad Hi;
    cbn [seq ScoreMarkers.group_loop].
  { by rewrite !take_0, !app_nil_r. }
  destruct (lookup_lt_is_Some_2 (ScoreMarkers.means s) i) as [cm Hcm]; [lia|].
  destruct (lookup_lt_is_Some_2 (ScoreMarkers.detected s) i) as [cd Hcd]; [lia|].
  destruct (Forall2_lookup_lr _ _ _ _ _ _ Hshape Hcm Hcd) as [Hne Hl].
  assert ((block_averages s).1 !! i
          = Some (average_vectors (length (default [] (head cm))) cm)) as H1.
  { unfold block_averages. cbn [fst]. by rewrite list_lookup_fmap, Hcm. }
  assert ((block_averages s).2 !! i
          = Some (average_vectors (length (default [] (head cm))) cd)) as H2.
  { unfold block_averages. cbn [snd]. rewrite lookup_zip_with, Hcm. cbn. by rewrite Hcd. }
  rewrite Hcm, Hcd, (block_loop_spec cm cd (length cm) 0) by lia.
  rewrite !drop_0, firstn_all, Hl, firstn_all. cbn [app].
  rewrite (drop_S _ _ _ H1), (drop_S _ _ _ H2).
  destruct cm as [|front cm']; [done|]. cbv zeta.
  rewrite IH by lia. cbn [take head default]. by rewrite <- !app_assoc.
Qed.

End score_markers_facts.

